(** * sat::model_converter — a shallow embedding of [sat_model_converter.cpp]

    The converter keeps a ledger ([m_entries]) of eliminated / blocked
    variables together with the clauses that justified removing them, and
    replays that ledger backwards over a model.  Each C++ method is
    rendered as a function over an explicit ledger and an explicit model.

    Conventions.
    - [option] is the fault monad: [None] stands for a run with no defined
      result: a failed [SASSERT] in a debug build, which stops the run, or
      an index outside the model vector or a handle outside the ledger,
      where a release build has no test and its behaviour is undefined.
      Nothing is read off a [None] other than that.
    - Every method that contains [SASSERT] / [DEBUG_CODE] takes a flag
      [debug]; with [debug = false] the assertions are compiled out, as in a
      release build. *)

From Stdlib Require Import NArith Lia.
From stdpp Require Import base tactics option list strings gmap.

Module sat.

(** ** Primitives of [sat_types.h] *)

(** Modelled from the spec: [bool_var] (declared in sat_types.h).  A
    variable is a non-negative index into the model. *)
Abbreviation bool_var := N.

(** Modelled from the spec: the sentinel carries no variable.  Asked for
    its [var()], it answers this reserved index ([UINT_MAX >> 1] in
    sat_types.h), which is the index of no variable of a model. *)
Definition null_bool_var : bool_var := 2147483647%N.

(** Modelled from the spec: [lbool] (declared in util/lbool.h), the
    three truth values of a model. *)
Inductive lbool : Set := l_false | l_undef | l_true.

#[global] Instance lbool_eq_dec : EqDecision lbool.
Proof. solve_decision. Defined.

(** Modelled from the spec: [operator~] on [lbool]; the opposite value,
    undefined staying undefined. *)
Definition lnot (b : lbool) : lbool :=
  match b with
  | l_false => l_true
  | l_undef => l_undef
  | l_true => l_false
  end.

(** Modelled from the spec: [literal] (declared in sat_types.h), a
    variable with a polarity, plus one reserved sentinel that is distinct
    from every real literal.  [sign = true] is the negative polarity. *)
Inductive literal : Set :=
| null_literal
| mk_literal (v : bool_var) (s : bool).

#[global] Instance literal_eq_dec : EqDecision literal.
Proof. solve_decision. Defined.

Definition var (l : literal) : bool_var :=
  match l with
  | null_literal => null_bool_var
  | mk_literal v _ => v
  end.

Definition sign (l : literal) : bool :=
  match l with
  | null_literal => false
  | mk_literal _ s => s
  end.

(** Modelled from the spec: [model] (declared in sat_types.h), the
    vector of truth values indexed by variable. *)
Abbreviation model := (list lbool).

(** [m[v]] as an rvalue; an index past the end has no defined result. *)
Definition get (m : model) (v : bool_var) : option lbool :=
  m !! N.to_nat v.

(** [m[v] = b]; an index past the end has no defined result. *)
Definition set (m : model) (v : bool_var) (b : lbool) : option model :=
  if decide (N.to_nat v < length m) then Some (<[N.to_nat v := b]> m)
  else None.

(** Modelled from the spec: [value_at(l, m)] (declared in sat_types.h):
    the value of the literal's variable, negated when the literal is
    negative. *)
Definition value_at (l : literal) (m : model) : option lbool :=
  r ← get m (var l);
  Some (if sign l then lnot r else r).

(** [sign ? l_false : l_true]: the value that makes a literal of that
    sign true. *)
Definition satisfying (sgn : bool) : lbool :=
  if sgn then l_false else l_true.

(** [SASSERT(c)]: the condition is evaluated in a debug build only, where
    a false condition (or a fault while evaluating it) stops the run. *)
Definition sassert (debug : bool) (c : option bool) : option unit :=
  if debug then b ← c; (if b : bool then Some tt else None) else Some tt.

(** [DEBUG_CODE({ ... })]: the block is compiled in a debug build only. *)
Definition debug_code (debug : bool) (c : option unit) : option unit :=
  if debug then c else Some tt.

(** ** The ledger *)

(** Modelled from the spec: [kind] and [entry] (declared in
    sat_model_converter.h). *)
Inductive kind : Set := ELIM_VAR | BLOCK_LIT.

#[global] Instance kind_eq_dec : EqDecision kind.
Proof. solve_decision. Defined.

(** [model_converter::entry]: the kind, the variable ([m_var e] is what
    [e.var()] returns) and the clauses, flattened and separated by
    [null_literal]. *)
Record entry : Set := mk_entry {
  get_kind : kind;
  m_var : bool_var;
  m_clauses : list literal
}.

#[global] Instance entry_eq_dec : EqDecision entry.
Proof. solve_decision. Defined.

(** ** [model_converter::operator()] — the replay *)

(** The locals of one iteration of the outer loop, with the model. *)
Record scan_state : Type := mk_state {
  st_sat : bool;
  st_var_sign : bool;
  st_m : model
}.

(** What one turn of the inner [for] does to the control flow. *)
Inductive ctl : Type :=
| Continue (st : scan_state)
| Break (m : model).

(** Body of [for (literal l : it->m_clauses)] on the entry of variable
    [x]. *)
Definition scan_step (x : bool_var) (l : literal) (st : scan_state)
  : option ctl :=
  let '(mk_state sat var_sign m) := st in
  if decide (l = null_literal) then
    (* end of clause *)
    if negb sat then
      m' ← set m x (satisfying var_sign);
      Some (Break m')
    else Some (Continue (mk_state false var_sign m))
  else if sat then Some (Continue st)
  else
    let sgn := sign l in
    let v := var l in
    let var_sign := if decide (v = x) then sgn else var_sign in
    r ← value_at l m;
    if decide (r = l_true) then Some (Continue (mk_state true var_sign m))
    else if decide (v ≠ x) then
      mv ← get m v;
      if decide (mv = l_undef) then
        (* clause can be satisfied by assigning v. *)
        m' ← set m v (satisfying sgn);
        Some (Continue (mk_state true var_sign m'))
      else Some (Continue (mk_state false var_sign m))
    else Some (Continue (mk_state false var_sign m)).

(** The inner [for] over a run of literals, from a given state. *)
Fixpoint scan (x : bool_var) (ls : list literal) (st : scan_state)
  : option ctl :=
  match ls with
  | [] => Some (Continue st)
  | l :: ls' =>
      c ← scan_step x l st;
      match c with
      | Break m' => Some (Break m')
      | Continue st' => scan x ls' st'
      end
  end.

Definition ctl_model (c : ctl) : model :=
  match c with
  | Continue st => st_m st
  | Break m => m
  end.

(** Lines 50-76: the patch of one entry. *)
Definition patch (e : entry) (m : model) : option model :=
  c ← scan (m_var e) (m_clauses e) (mk_state false false m);
  Some (ctl_model c).

(** Lines 77-91, the [DEBUG_CODE] block: all clauses must be satisfied. *)
Fixpoint assert_satisfied (ls : list literal) (sat : bool) (m : model)
  : option unit :=
  match ls with
  | [] => Some tt
  | l :: ls' =>
      if decide (l = null_literal) then
        if sat then assert_satisfied ls' false m else None
      else if sat then assert_satisfied ls' sat m
      else
        r ← value_at l m;
        assert_satisfied ls' (bool_decide (r = l_true)) m
  end.

(** One iteration of [while (it != begin)]. *)
Definition apply_entry (debug : bool) (e : entry) (m : model)
  : option model :=
  _ ← sassert debug
        (if decide (get_kind e ≠ ELIM_VAR) then Some true
         else mv ← get m (m_var e); Some (bool_decide (mv = l_undef)));
  (* if it->get_kind() == BLOCK_LIT, then it might be the case that
     m[it->var()] != l_undef, and the following procedure flips its
     value. *)
  m' ← patch e m;
  _ ← debug_code debug (assert_satisfied (m_clauses e) false m');
  Some m'.

(** The iterator walks from [end()] down to [begin()]: [its] is the
    ledger in the order the loop visits it. *)
Fixpoint apply_loop (debug : bool) (its : list entry) (m : model)
  : option model :=
  match its with
  | [] => Some m
  | e :: its' =>
      m' ← apply_entry debug e m;
      apply_loop debug its' m'
  end.

Definition apply (debug : bool) (m_entries : list entry) (m : model)
  : option model :=
  apply_loop debug (reverse m_entries) m.

(** ** [model_converter::check_model] *)

(** Lines 109-126: the clauses of one entry; [ok] is the flag of the
    enclosing function. *)
Fixpoint check_clauses (ls : list literal) (sat ok : bool) (m : model)
  : option bool :=
  match ls with
  | [] => Some ok
  | l :: ls' =>
      if decide (l = null_literal) then
        (* end of clause *)
        check_clauses ls' false (if negb sat then false else ok) m
      else if sat then check_clauses ls' sat ok m
      else
        r ← value_at l m;
        check_clauses ls' (bool_decide (r = l_true)) ok m
  end.

Fixpoint check_model_loop (its : list entry) (ok : bool) (m : model)
  : option bool :=
  match its with
  | [] => Some ok
  | e :: its' =>
      ok' ← check_clauses (m_clauses e) false ok m;
      check_model_loop its' ok' m
  end.

Definition check_model (m_entries : list entry) (m : model) : option bool :=
  check_model_loop (reverse m_entries) true m.

(** ** Construction: [mk] and the three [insert] overloads *)

(** Modelled from the spec: [clause] and [clause_wrapper] (declared in
    sat_clause.h) seen through their size and indexed access. *)
Abbreviation clause := (list literal).

(** Modelled from the spec: [c.contains(v)], some literal of [c] is over
    [v]. *)
Definition contains (c : clause) (v : bool_var) : bool :=
  bool_decide (Exists (λ l, var l = v) c).

(** [literal_vector::push_back]. *)
Definition push_back {A : Type} (ls : list A) (x : A) : list A := ls ++ [x].

(** A reference [entry &] into [m_entries] is the position it points
    at. *)
Abbreviation handle := nat.

(** [mk(k, v)]: the grown ledger and the reference to its last entry. *)
Definition mk (k : kind) (v : bool_var) (m_entries : list entry)
  : list entry * handle :=
  (push_back m_entries (mk_entry k v []), length m_entries).

(** What the body of an [insert] does to [e.m_clauses], written back
    through the reference.  [m_entries.begin() <= &e < m_entries.end()]
    is what makes the reference a position of the ledger. *)
Definition with_entry (m_entries : list entry) (h : handle)
    (f : entry → option (list literal)) : option (list entry) :=
  e ← m_entries !! h;
  ls ← f e;
  Some (<[h := mk_entry (get_kind e) (m_var e) ls]> m_entries).

(** [insert(entry & e, clause const & c)] *)
Definition insert_clause (debug : bool) (m_entries : list entry)
    (h : handle) (c : clause) : option (list entry) :=
  with_entry m_entries h (λ e,
    _ ← sassert debug (Some (contains c (m_var e)));
    Some (push_back (foldl push_back (m_clauses e) c) null_literal)).

(** [insert(entry & e, literal l1, literal l2)] *)
Definition insert_binary (debug : bool) (m_entries : list entry)
    (h : handle) (l1 l2 : literal) : option (list entry) :=
  with_entry m_entries h (λ e,
    _ ← sassert debug
          (Some (bool_decide (var l1 = m_var e ∨ var l2 = m_var e)));
    Some (push_back (push_back (push_back (m_clauses e) l1) l2)
            null_literal)).

(** [for (unsigned i = 0; i < sz; ++i) e.m_clauses.push_back(c[i]);]
    with [n] turns left. *)
Fixpoint push_indexed (c : clause) (i n : nat) (ls : list literal)
  : option (list literal) :=
  match n with
  | 0 => Some ls
  | S n' => l ← c !! i; push_indexed c (S i) n' (push_back ls l)
  end.

(** [insert(entry & e, clause_wrapper const & c)] *)
Definition insert_wrapper (debug : bool) (m_entries : list entry)
    (h : handle) (c : clause) : option (list entry) :=
  with_entry m_entries h (λ e,
    _ ← sassert debug (Some (contains c (m_var e)));
    ls ← push_indexed c 0 (length c) (m_clauses e);
    Some (push_back ls null_literal)).

(** ** [model_converter::check_invariant] *)

(** Lines 181-185, over the clauses of a later entry. *)
Fixpoint check_lits (debug : bool) (num_vars x : bool_var)
    (ls : list literal) : option unit :=
  match ls with
  | [] => Some tt
  | l :: ls' =>
      _ ← sassert debug (Some (bool_decide (var l ≠ x)));
      _ ← sassert debug
            (Some (bool_decide (l = null_literal) || (var l <? num_vars)%N));
      check_lits debug num_vars x ls'
  end.

(** Lines 179-186, over the entries after [it]. *)
Fixpoint check_later (debug : bool) (num_vars x : bool_var)
    (its2 : list entry) : option unit :=
  match its2 with
  | [] => Some tt
  | e2 :: its2' =>
      _ ← sassert debug (Some (bool_decide (m_var e2 ≠ x)));
      _ ← check_lits debug num_vars x (m_clauses e2);
      check_later debug num_vars x its2'
  end.

(** After a variable v occurs in an entry n and the entry has kind
    ELIM_VAR, then the variable must not occur in any other entry
    occurring after it. *)
Fixpoint check_invariant (debug : bool) (num_vars : bool_var)
    (m_entries : list entry) : option bool :=
  match m_entries with
  | [] => Some true
  | e :: rest =>
      _ ← sassert debug (Some (m_var e <? num_vars)%N);
      _ ← (if decide (get_kind e = ELIM_VAR)
           then check_later debug num_vars (m_var e) rest
           else Some tt);
      check_invariant debug num_vars rest
  end.

(** ** [model_converter::max_var] *)

Definition max_var_clauses (ls : list literal) (result : bool_var)
  : bool_var :=
  foldl (λ result l,
           if decide (l ≠ null_literal) then
             if (result <? var l)%N then var l else result
           else result)
        result ls.

Definition max_var (min : bool_var) (m_entries : list entry) : bool_var :=
  foldl (λ result e, max_var_clauses (m_clauses e) result) min m_entries.

(** ** [reset], [copy] and [operator=]

    These take the other converter by reference, so the converters live
    in a store and are named by their address. *)

Abbreviation addr := nat.

Abbreviation store := (gmap addr (list entry)).

(** Modelled from the spec: [vector::finalize] (declared in
    util/vector.h) clears all entries and releases their storage. *)
Definition reset (this : addr) (σ : store) : option store :=
  _ ← σ !! this;
  Some (<[this := []]> σ).

(** Modelled from the spec: [vector::append] (declared in util/vector.h)
    pushes the elements of the other vector, read where it lives when
    the call is made, at the end of this one. *)
Definition append (this other : addr) (σ : store) : option store :=
  dst ← σ !! this;
  src ← σ !! other;
  Some (<[this := dst ++ src]> σ).

Definition copy (this src : addr) (σ : store) : option store :=
  σ' ← reset this σ;
  append this src σ'.

(** [operator=]: [copy(other); return *this;] *)
Definition assign (this other : addr) (σ : store) : option (addr * store) :=
  σ' ← copy this other σ;
  Some (this, σ').

(** ** Sample ledgers and models *)

Definition pos (v : bool_var) : literal := mk_literal v false.
Definition neg (v : bool_var) : literal := mk_literal v true.

(** Variable 3 eliminated with the single clause (1 ∨ ¬3). *)
Definition entry_A : entry :=
  mk_entry ELIM_VAR 3 [pos 1; neg 3; null_literal].

(** Variable 3 eliminated from (1 ∨ 3) and (2 ∨ ¬3). *)
Definition entry_R : entry :=
  mk_entry ELIM_VAR 3 [pos 1; pos 3; null_literal; pos 2; neg 3; null_literal].

(** Variable 5 eliminated first, then variable 3 with a clause that
    still mentions 5. *)
Definition ledger_C : list entry :=
  [mk_entry ELIM_VAR 5 [pos 5; pos 4; null_literal];
   mk_entry ELIM_VAR 3 [pos 3; neg 5; null_literal]].

(** Variable 3 blocked with the single clause (1 ∨ 3). *)
Definition entry_B : entry :=
  mk_entry BLOCK_LIT 3 [pos 1; pos 3; null_literal].

(** Variable 1 blocked with the clause (¬1), then variable 2 eliminated
    from (1 ∨ 2) and (1 ∨ ¬2). *)
Definition ledger_F : list entry :=
  [mk_entry BLOCK_LIT 1 [neg 1; null_literal];
   mk_entry ELIM_VAR 2 [pos 1; pos 2; null_literal; pos 1; neg 2; null_literal]].

(** A model for [entry_A] and [entry_R]: variables 0 and 2 true,
    variable 1 false, variable 3 not assigned. *)
Definition model_A : model := [l_true; l_false; l_true; l_undef].

(** ** Vocabulary of the statements *)

(** The ledger after an attach: the entry behind the handle has its
    clauses replaced by [ls], all else is as before. *)
Definition attached (m_entries m_entries' : list entry) (h : handle)
    (e : entry) (ls : list literal) : Prop :=
  m_entries' !! h = Some (mk_entry (get_kind e) (m_var e) ls) ∧
  length m_entries' = length m_entries ∧
  ∀ j, j ≠ h → m_entries' !! j = m_entries !! j.

(** A literal over [v] occurs among the clauses of [e]. *)
Definition mentions (v : bool_var) (e : entry) : Prop :=
  ∃ l, l ∈ m_clauses e ∧ l ≠ null_literal ∧ var l = v.

(** What the assertions of [check_invariant] ask of one literal, and of
    one entry, that come after an eliminated variable [x]. *)
Definition lit_after_ok (num_vars x : bool_var) (l : literal) : Prop :=
  var l ≠ x ∧ (l = null_literal ∨ (var l < num_vars)%N).

Definition entry_after_ok (num_vars x : bool_var) (e2 : entry) : Prop :=
  m_var e2 ≠ x ∧ Forall (lit_after_ok num_vars x) (m_clauses e2).

(** The variable [w] has a value in [m], and it is not [l_undef]. *)
Definition is_defined (m : model) (w : bool_var) : Prop :=
  ∃ b, get m w = Some b ∧ b ≠ l_undef.

(** From [m] to [m'] the vector keeps its size, a defined variable stays
    defined, and it keeps its value unless it is one of [X]. *)
Definition frame (X : bool_var → Prop) (m m' : model) : Prop :=
  length m' = length m ∧
  ∀ w b, get m w = Some b → b ≠ l_undef →
         is_defined m' w ∧ (¬ X w → get m' w = Some b).

(** Some entry of the ledger is the entry of [w]. *)
Definition owned (m_entries : list entry) (w : bool_var) : Prop :=
  ∃ e, e ∈ m_entries ∧ m_var e = w.

(** The sign of the last literal of [c] over [x], if there is one. *)
Definition last_polarity (x : bool_var) (c : clause) : option bool :=
  sign <$> last (filter (λ l, var l = x) c).

(** The clauses of a flattened sequence: the runs of literals that end
    at a separator, [cur] being the run read so far. *)
Fixpoint split_clauses (ls : list literal) (cur : clause) : list clause :=
  match ls with
  | [] => []
  | l :: ls' =>
      if decide (l = null_literal) then cur :: split_clauses ls' []
      else split_clauses ls' (cur ++ [l])
  end.

Definition clauses_of (e : entry) : list clause :=
  split_clauses (m_clauses e) [].

(** Some literal of the clause evaluates to true under the model. *)
Definition clause_satisfied (m : model) (c : clause) : Prop :=
  Exists (λ l, value_at l m = Some l_true) c.

Definition all_satisfied (m_entries : list entry) (m : model) : Prop :=
  ∀ e, e ∈ m_entries → Forall (clause_satisfied m) (clauses_of e).

(** Every variable of a literal of the ledger is an index of the
    model. *)
Definition in_range (m_entries : list entry) (m : model) : Prop :=
  ∀ e l, e ∈ m_entries → l ∈ m_clauses e → l ≠ null_literal →
         N.to_nat (var l) < length m.

(** No entry mentions, among its clauses, the variable of an entry that
    comes before it in the ledger. *)
Definition ordered (m_entries : list entry) : Prop :=
  ∀ es1 e es2 e2, m_entries = es1 ++ e :: es2 → e2 ∈ es2 →
                  ¬ mentions (m_var e) e2.

(** The same, asked of the [BLOCK_LIT] entries only: the part of
    [ordered] that [check_invariant] does not look at. *)
Definition blocked_unreferenced (m_entries : list entry) : Prop :=
  ∀ es1 e es2 e2, m_entries = es1 ++ e :: es2 → get_kind e = BLOCK_LIT →
                  e2 ∈ es2 → ¬ mentions (m_var e) e2.

(** ** [model_converter::collect_vars] *)

(** Modelled from the spec: [bool_var_set] (declared in sat_types.h), a
    set of variables with insertion. *)
Definition collect_vars (m_entries : list entry) (s : gset bool_var)
  : gset bool_var :=
  foldl (λ s e, {[m_var e]} ∪ s) s m_entries.

(** ** [model_converter::display] *)

(** What one [out << x] writes: a string constant, an unsigned number or
    a literal.  How the stream prints numbers and literals is the
    business of their own [operator<<]. *)
Inductive chunk : Set :=
| Text (s : string)
| Unsigned (v : bool_var)
| Literal (l : literal).

(** The line feed of the string constants. *)
Definition nl : string := String (Ascii.ascii_of_nat 10) EmptyString.

(** Lines 197-212: the clauses of one entry; [start] says that the next
    literal opens a clause. *)
Fixpoint display_clauses (ls : list literal) (start : bool)
    (out : list chunk) : list chunk :=
  match ls with
  | [] => out
  | l :: ls' =>
      let '(out, start) :=
        if start then (out ++ [Text (nl +:+ "    (")], false)
        else ((if decide (l ≠ null_literal) then out ++ [Text " "] else out),
              start) in
      if decide (l = null_literal) then
        display_clauses ls' true (out ++ [Text ")"])
      else display_clauses ls' start (out ++ [Literal l])
  end.

Definition display_entry (out : list chunk) (e : entry) : list chunk :=
  let out :=
    out ++ [Text (nl +:+ "  (");
            Text (if decide (get_kind e = ELIM_VAR) then "elim" else "blocked");
            Text " "; Unsigned (m_var e)] in
  display_clauses (m_clauses e) true out ++ [Text ")"].

Definition display (m_entries : list entry) (out : list chunk)
  : list chunk :=
  foldl display_entry (out ++ [Text "(sat::model-converter"]) m_entries
  ++ [Text (")" +:+ nl)].

(** ** More vocabulary *)

(** The literals among the chunks written, and the numbers. *)
Definition literals_written (out : list chunk) : list literal :=
  omap (λ c, match c with Literal l => Some l | _ => None end) out.

Definition numbers_written (out : list chunk) : list bool_var :=
  omap (λ c, match c with Unsigned v => Some v | _ => None end) out.

(** The literals of a flattened sequence, separators left out. *)
Definition real_literals (ls : list literal) : list literal :=
  filter (λ l, l ≠ null_literal) ls.

(** All literals of [c] over [x] have the same sign. *)
Definition single_polarity (x : bool_var) (c : clause) : Prop :=
  ∀ l1 l2, l1 ∈ c → l2 ∈ c → var l1 = x → var l2 = x → sign l1 = sign l2.

(** A flattened sequence in which every clause has its separator. *)
Definition terminated (ls : list literal) : Prop :=
  ls = [] ∨ last ls = Some null_literal.

(** What the assertions of [check_invariant] ask of a whole ledger. *)
Definition invariant_holds (num_vars : bool_var) (m_entries : list entry)
  : Prop :=
  (∀ e, e ∈ m_entries → (m_var e < num_vars)%N) ∧
  ∀ es1 e es2, m_entries = es1 ++ e :: es2 → get_kind e = ELIM_VAR →
               Forall (entry_after_ok num_vars (m_var e)) es2.

(** Variable 3 eliminated first, with a clause that mentions 5, then
    variable 5: [ledger_C] in the order that is allowed. *)
Definition ledger_O : list entry :=
  [mk_entry ELIM_VAR 3 [pos 3; neg 5; null_literal];
   mk_entry ELIM_VAR 5 [pos 5; pos 4; null_literal]].

(** The two parentheses. *)
Definition lparen : Ascii.ascii := Ascii.ascii_of_nat 40.
Definition rparen : Ascii.ascii := Ascii.ascii_of_nat 41.

(** How many times the character [a] occurs in [s]. *)
Fixpoint count_char (a : Ascii.ascii) (s : string) : nat :=
  match s with
  | EmptyString => 0
  | String b s' => (if decide (a = b) then 1 else 0) + count_char a s'
  end.

(** Opening minus closing parentheses among the string constants
    written. *)
Definition depth (out : list chunk) : Z :=
  foldr (λ c d,
           match c with
           | Text s => (Z.of_nat (count_char lparen s)
                        - Z.of_nat (count_char rparen s) + d)%Z
           | _ => d
           end) 0%Z out.

#[global] Instance terminated_dec ls : Decision (terminated ls).
Proof. unfold terminated. apply _. Defined.

(** The entries whose last clause lacks its separator. *)
Definition unterminated (m_entries : list entry) : list entry :=
  filter (λ e, ¬ terminated (m_clauses e)) m_entries.

(** What one turn of the loop of [display_clauses] writes. *)
Definition pieces (l : literal) (start : bool) : list chunk :=
  (if start then [Text (nl +:+ "    (")]
   else if decide (l ≠ null_literal) then [Text " "] else [])
  ++ [if decide (l = null_literal) then Text ")" else Literal l].

(** What [display_entry] writes before the clauses. *)
Definition entry_head (e : entry) : list chunk :=
  [Text (nl +:+ "  (");
   Text (if decide (get_kind e = ELIM_VAR) then "elim" else "blocked");
   Text " "; Unsigned (m_var e)].

(** At the model [m] the entry [e] can be patched: its variable is
    [l_undef], its stored literals index the model, no clause holds its
    variable with both signs, and some value of its variable satisfies all
    its clauses. *)
Definition solvable_at (e : entry) (m : model) : Prop :=
  get m (m_var e) = Some l_undef ∧
  (∀ l, l ∈ m_clauses e → l ≠ null_literal → N.to_nat (var l) < length m) ∧
  Forall (single_polarity (m_var e)) (clauses_of e) ∧
  ∃ b, Forall (clause_satisfied (<[N.to_nat (m_var e) := b]> m)) (clauses_of e).

(** * Properties *)

(** ** The model vector *)

Lemma set_Some m v b m' :
  set m v b = Some m' →
  N.to_nat v < length m ∧ m' = <[N.to_nat v := b]> m.
Proof. unfold set. case_decide; naive_solver. Qed.

Lemma set_length m v b m' : set m v b = Some m' → length m' = length m.
Proof. intros [_ ->]%set_Some. apply length_insert. Qed.

Lemma get_set_eq m v b m' : set m v b = Some m' → get m' v = Some b.
Proof.
  intros [Hlt ->]%set_Some. unfold get. by apply list_lookup_insert_eq.
Qed.

Lemma get_set_ne m v w b m' :
  set m v b = Some m' → v ≠ w → get m' w = get m w.
Proof.
  intros [_ ->]%set_Some Hne. unfold get.
  apply list_lookup_insert_ne. lia.
Qed.

Lemma get_Some_lt m v b : get m v = Some b → N.to_nat v < length m.
Proof. unfold get. apply lookup_lt_Some. Qed.

Lemma set_in_range m v b :
  N.to_nat v < length m → set m v b = Some (<[N.to_nat v := b]> m).
Proof. intros. unfold set. by case_decide. Qed.

(** ** [max_var] *)

Lemma max_var_clauses_ge ls r : (r ≤ max_var_clauses ls r)%N.
Proof.
  revert r. induction ls as [|l ls IH]; intros r; simpl; [lia|].
  etrans; [|apply IH].
  case_decide; [|lia]. destruct (N.ltb_spec r (var l)); lia.
Qed.

Lemma max_var_clauses_bound ls r l :
  l ∈ ls → l ≠ null_literal → (var l ≤ max_var_clauses ls r)%N.
Proof.
  revert r. induction ls as [|l' ls IH]; intros r Hin Hl.
  - by apply not_elem_of_nil in Hin.
  - apply elem_of_cons in Hin as [->|Hin]; simpl.
    + etrans; [|apply max_var_clauses_ge].
      case_decide; [|done]. destruct (N.ltb_spec r (var l')); lia.
    + by apply IH.
Qed.

Lemma max_var_ge min es : (min ≤ max_var min es)%N.
Proof.
  revert min. induction es as [|e es IH]; intros r; simpl; [lia|].
  etrans; [apply (max_var_clauses_ge (m_clauses e))|apply IH].
Qed.

(** C7.  [max_var(min)] is at least [min] and at least the variable of
    every literal, other than the clause separator, stored in any entry
    of the ledger. *)
Theorem max_var_bound (min : bool_var) (m_entries : list entry) :
  (min ≤ max_var min m_entries)%N ∧
  ∀ e l, e ∈ m_entries → l ∈ m_clauses e → l ≠ null_literal →
         (var l ≤ max_var min m_entries)%N.
Proof.
  split; [apply max_var_ge|].
  revert min. induction m_entries as [|e' es IH]; intros r e l He Hl Hn.
  - by apply not_elem_of_nil in He.
  - apply elem_of_cons in He as [->|He]; simpl.
    + etrans; [|apply max_var_ge]. by apply max_var_clauses_bound.
    + by eapply IH.
Qed.

Lemma max_var_bound_witness :
  (2 ≤ max_var 2 ledger_C)%N ∧ (5 ≤ max_var 2 ledger_C)%N.
Proof.
  pose proof (max_var_bound 2 ledger_C) as [H1 H2].
  split; [exact H1|].
  apply (H2 (mk_entry ELIM_VAR 3 [pos 3; neg 5; null_literal]) (neg 5));
    [unfold ledger_C; set_solver|simpl; set_solver|discriminate].
Defined.

(** ** Construction *)

Lemma foldl_push_back {A : Type} (c ls : list A) :
  foldl push_back ls c = ls ++ c.
Proof.
  revert ls. induction c as [|l c IH]; intros ls; simpl.
  - by rewrite app_nil_r.
  - rewrite IH. unfold push_back. by rewrite <- app_assoc.
Qed.

Lemma push_indexed_drop c i ls :
  i ≤ length c →
  push_indexed c i (length c - i) ls = Some (ls ++ drop i c).
Proof.
  remember (length c - i) as n eqn:Hn.
  revert i ls Hn. induction n as [|n IH]; intros i ls Hn Hi;
    cbn [push_indexed].
  - rewrite drop_ge by lia. by rewrite app_nil_r.
  - destruct (lookup_lt_is_Some_2 c i) as [l Hl]; [lia|].
    rewrite Hl. cbn [mbind option_bind]. rewrite IH by lia.
    rewrite (drop_S _ _ _ Hl). unfold push_back. by rewrite <- app_assoc.
Qed.

Lemma push_indexed_all c ls :
  push_indexed c 0 (length c) ls = Some (ls ++ c).
Proof.
  pose proof (push_indexed_drop c 0 ls) as H.
  rewrite Nat.sub_0_r in H. rewrite H by lia. by rewrite drop_0.
Qed.

Lemma sassert_pass debug b :
  debug = false ∨ b = true → sassert debug (Some b) = Some tt.
Proof. destruct debug; intros [?|?]; by simplify_eq/=. Qed.

Lemma with_entry_attached es h e ls f :
  es !! h = Some e → f e = Some ls →
  ∃ es', with_entry es h f = Some es' ∧ attached es es' h e ls.
Proof.
  intros He Hf. unfold with_entry. rewrite He. simpl. rewrite Hf. simpl.
  eexists; split; [done|]. split_and!.
  - apply list_lookup_insert_eq. by eapply lookup_lt_Some.
  - apply length_insert.
  - intros j Hj. by apply list_lookup_insert_ne.
Qed.

(** C8.  Attaching a clause to the entry behind a handle appends the
    literals of the clause, in order, and then one separator, to that
    entry's clauses; the entry keeps its variable and kind and every other
    entry is untouched.  This holds for both clause overloads, in a
    release build always and in a debug build when the clause contains the
    entry's variable.  The binary overload appends [l1], [l2] and the
    separator, when one of the two is over the entry's variable. *)
Theorem insert_appends (debug : bool) (m_entries : list entry) (h : handle)
    (e : entry) :
  m_entries !! h = Some e →
  (∀ c : clause,
     debug = false ∨ contains c (m_var e) = true →
     (∃ es', insert_clause debug m_entries h c = Some es' ∧
             attached m_entries es' h e (m_clauses e ++ c ++ [null_literal]))
     ∧
     (∃ es', insert_wrapper debug m_entries h c = Some es' ∧
             attached m_entries es' h e (m_clauses e ++ c ++ [null_literal])))
  ∧
  (∀ l1 l2 : literal,
     var l1 = m_var e ∨ var l2 = m_var e →
     ∃ es', insert_binary debug m_entries h l1 l2 = Some es' ∧
            attached m_entries es' h e
              (m_clauses e ++ [l1; l2; null_literal])).
Proof.
  intros He. split.
  - intros c Hc. split.
    + apply with_entry_attached; [done|].
      rewrite sassert_pass by done. simpl.
      rewrite foldl_push_back. unfold push_back.
      by rewrite <- app_assoc.
    + apply with_entry_attached; [done|].
      rewrite sassert_pass by done. simpl.
      rewrite push_indexed_all. simpl. unfold push_back.
      by rewrite <- app_assoc.
  - intros l1 l2 Hl. apply with_entry_attached; [done|].
    rewrite sassert_pass by (right; by apply bool_decide_eq_true).
    simpl. unfold push_back. by rewrite <- !app_assoc.
Qed.

Lemma insert_appends_witness :
  insert_clause true ledger_C 1 [pos 3; pos 4]
  = Some [mk_entry ELIM_VAR 5 [pos 5; pos 4; null_literal];
          mk_entry ELIM_VAR 3
            [pos 3; neg 5; null_literal; pos 3; pos 4; null_literal]]
  ∧ insert_binary true ledger_C 1 (neg 3) (pos 4)
  = Some [mk_entry ELIM_VAR 5 [pos 5; pos 4; null_literal];
          mk_entry ELIM_VAR 3
            [pos 3; neg 5; null_literal; neg 3; pos 4; null_literal]].
Proof.
  destruct (insert_appends true ledger_C 1
              (mk_entry ELIM_VAR 3 [pos 3; neg 5; null_literal])
              eq_refl) as [Hc Hb].
  split.
  - destruct (Hc [pos 3; pos 4]) as [(es' & Hes & _) _].
    + right. reflexivity.
    + reflexivity.
  - destruct (Hb (neg 3) (pos 4)) as (es' & Hes & _).
    + left. reflexivity.
    + reflexivity.
Defined.

(** ** [copy] and [operator=] *)

(** C10.  [copy] first resets the destination and only then reads the
    source.  When source and destination are the same converter its
    ledger ends up empty; when they are two converters the destination
    ends up with the entries the source had, and the source keeps them.
    [operator=] does the same and returns the destination. *)
Theorem copy_resets_before_reading (σ : store) (this src : addr)
    (mine theirs : list entry) :
  σ !! this = Some mine →
  σ !! src = Some theirs →
  (this = src →
     copy this src σ = Some (<[this := []]> σ) ∧
     assign this src σ = Some (this, <[this := []]> σ)) ∧
  (this ≠ src →
     copy this src σ = Some (<[this := theirs]> σ) ∧
     assign this src σ = Some (this, <[this := theirs]> σ)).
Proof.
  intros Hthis Hsrc. unfold assign, copy, reset, append. rewrite Hthis.
  cbn [mbind option_bind]. rewrite lookup_insert_eq. cbn [mbind option_bind].
  split.
  - intros <-. rewrite lookup_insert_eq. cbn [mbind option_bind].
    by rewrite insert_insert_eq.
  - intros Hne. rewrite lookup_insert_ne by done. rewrite Hsrc.
    cbn [mbind option_bind]. by rewrite insert_insert_eq.
Qed.

Lemma copy_resets_before_reading_witness :
  (copy 0 0 {[0 := ledger_C; 1 := [entry_A]]} ≫= (.!! 0)) = Some []
  ∧ (copy 0 1 {[0 := ledger_C; 1 := [entry_A]]} ≫= (.!! 0)) = Some [entry_A]
  ∧ (copy 0 1 {[0 := ledger_C; 1 := [entry_A]]} ≫= (.!! 1)) = Some [entry_A].
Proof.
  assert ((({[0 := ledger_C; 1 := [entry_A]]} : store) !! 0) = Some ledger_C)
    as H0 by (vm_compute; reflexivity).
  assert ((({[0 := ledger_C; 1 := [entry_A]]} : store) !! 1) = Some [entry_A])
    as H1 by (vm_compute; reflexivity).
  destruct (copy_resets_before_reading _ 0 0 _ _ H0 H0) as [Hself _].
  destruct (copy_resets_before_reading _ 0 1 _ _ H0 H1) as [_ Hother].
  destruct (Hself eq_refl) as [-> _].
  destruct Hother as [-> _]; [discriminate|].
  split_and!; vm_compute; reflexivity.
Defined.

(** ** [check_invariant] *)

Lemma check_lits_release n x ls : check_lits false n x ls = Some tt.
Proof. induction ls; simpl; done. Qed.

Lemma check_later_release n x its : check_later false n x its = Some tt.
Proof.
  induction its as [|e its IH]; simpl; [done|].
  by rewrite check_lits_release.
Qed.

Lemma check_invariant_release n es : check_invariant false n es = Some true.
Proof.
  induction es as [|e es IH]; simpl; [done|].
  case_decide; [rewrite check_later_release|]; done.
Qed.

Lemma check_invariant_cases debug n es :
  check_invariant debug n es = Some true ∨ check_invariant debug n es = None.
Proof.
  induction es as [|e es IH]; simpl; [by left|].
  destruct (sassert debug _); simpl; [|by right].
  destruct (if decide _ then _ else _); simpl; [done|by right].
Qed.

Lemma sassert_debug_Some b : sassert true (Some b) = Some tt ↔ b = true.
Proof. destruct b; simpl; naive_solver. Qed.

Lemma check_lits_debug n x ls :
  check_lits true n x ls = Some tt ↔ Forall (lit_after_ok n x) ls.
Proof.
  induction ls as [|l ls IH]; simpl.
  - split; [constructor|done].
  - rewrite Forall_cons, <- IH. unfold lit_after_ok.
    destruct (decide (var l = x)) as [Heq|Hne].
    { rewrite (bool_decide_eq_false_2 (var l ≠ x)) by (by intros ?).
      simpl. split; [done|]. by intros [[? _] _]. }
    rewrite (bool_decide_eq_true_2 (var l ≠ x)) by done. simpl.
    destruct (decide (l = null_literal)) as [Hl|Hl].
    { rewrite (bool_decide_eq_true_2 (l = null_literal)) by done.
      simpl. tauto. }
    rewrite (bool_decide_eq_false_2 (l = null_literal)) by done. simpl.
    destruct (N.ltb_spec (var l) n); simpl; [tauto|].
    split; [done|]. intros [[_ [?|?]] _]; [done|lia].
Qed.

Lemma check_later_debug n x its :
  check_later true n x its = Some tt ↔ Forall (entry_after_ok n x) its.
Proof.
  induction its as [|e its IH]; simpl.
  - split; [constructor|done].
  - rewrite Forall_cons, <- IH. unfold entry_after_ok.
    rewrite <- check_lits_debug.
    destruct (decide (m_var e = x)) as [Heq|Hne].
    { rewrite (bool_decide_eq_false_2 (m_var e ≠ x)) by (by intros ?).
      simpl. split; [done|]. by intros [[? _] _]. }
    rewrite (bool_decide_eq_true_2 (m_var e ≠ x)) by done. simpl.
    destruct (check_lits true n x (m_clauses e)) as [[]|]; simpl.
    + tauto.
    + split; [done|]. by intros [[_ ?] _].
Qed.

(** In a debug build, [check_invariant] comes back exactly when every
    entry's variable is below [num_vars] and the entries after an
    [ELIM_VAR] entry pass its assertions. *)
Lemma check_invariant_debug n es1 e es2 :
  check_invariant true n (es1 ++ e :: es2) = Some true →
  (m_var e < n)%N ∧
  (get_kind e = ELIM_VAR → Forall (entry_after_ok n (m_var e)) es2).
Proof.
  induction es1 as [|e1 es1 IH]; simpl.
  - destruct (N.ltb_spec (m_var e) n); simpl; [|done].
    case_decide; [|naive_solver].
    destruct (check_later _ _ _ _) as [[]|] eqn:Hl; simpl; [|done].
    intros _. split; [done|]. intros _. by apply check_later_debug.
  - destruct (m_var e1 <? n)%N; simpl; [|done].
    case_decide; [destruct (check_later _ _ _ _) as [[]|]|];
      simpl; try done; apply IH.
Qed.

Lemma mentions_not_after_ok n x e2 :
  m_var e2 = x ∨ mentions x e2 → ¬ entry_after_ok n x e2.
Proof.
  intros [Hv|(l & Hin & _ & Hl)] [Hne Hall]; [done|].
  rewrite Forall_forall in Hall. by destruct (Hall l Hin).
Qed.

(** C3, as the code has it.  [check_invariant] never returns false.  In a
    release build it returns true on every ledger.  In a debug build it
    either returns true or stops at a failed assertion, and it does stop
    when some entry after an [ELIM_VAR] entry has the same variable or
    mentions that variable in its clauses. *)
Theorem check_invariant_true_or_fault :
  (∀ n es, check_invariant false n es = Some true) ∧
  (∀ debug n es, check_invariant debug n es ≠ Some false) ∧
  (∀ n es1 e es2 e2 es3,
     get_kind e = ELIM_VAR →
     m_var e2 = m_var e ∨ mentions (m_var e) e2 →
     check_invariant true n (es1 ++ e :: es2 ++ e2 :: es3) = None).
Proof.
  split_and!.
  - apply check_invariant_release.
  - intros debug n es. by destruct (check_invariant_cases debug n es) as [->| ->].
  - intros n es1 e es2 e2 es3 Hk Hbad.
    destruct (check_invariant_cases true n (es1 ++ e :: es2 ++ e2 :: es3))
      as [Hok|Hnone]; [|done].
    apply check_invariant_debug in Hok as [_ Hok].
    specialize (Hok Hk). rewrite Forall_app, Forall_cons in Hok.
    destruct Hok as (_ & Hok & _).
    by apply mentions_not_after_ok in Hok.
Qed.

Lemma check_invariant_true_or_fault_witness :
  check_invariant true 6 ledger_C = None.
Proof.
  destruct check_invariant_true_or_fault as (_ & _ & H).
  apply (H 6%N [] (mk_entry ELIM_VAR 5 [pos 5; pos 4; null_literal]) []
           (mk_entry ELIM_VAR 3 [pos 3; neg 5; null_literal]) []).
  - reflexivity.
  - right. exists (neg 5). split_and!; [set_solver|discriminate|reflexivity].
Defined.

(** C3, as stated, fails on the ledger of Scenario C: the release build
    answers true and the debug build stops at the assertion, so neither
    returns false. *)
Lemma check_invariant_scenario_C :
  check_invariant false 6 ledger_C = Some true ∧
  check_invariant true 6 ledger_C = None.
Proof. split; reflexivity. Qed.

(** Two [BLOCK_LIT] entries for one variable pass even the debug build. *)
Example check_invariant_shared_blocked :
  check_invariant true 6
    [mk_entry BLOCK_LIT 3 [pos 3; null_literal];
     mk_entry BLOCK_LIT 3 [neg 3; pos 4; null_literal]] = Some true.
Proof. reflexivity. Qed.

(** ** Frames *)

Lemma frame_refl X m : frame X m m.
Proof. split; [done|]. intros w b Hw Hb. split; [by exists b|done]. Qed.

Lemma frame_weaken (X Y : bool_var → Prop) m m' :
  (∀ w, X w → Y w) → frame X m m' → frame Y m m'.
Proof.
  intros HXY [Hlen H]. split; [done|]. intros w b Hw Hb.
  destruct (H w b Hw Hb) as [Hd Hk]. split; [done|]. auto.
Qed.

Lemma frame_trans X m1 m2 m3 :
  frame X m1 m2 → frame X m2 m3 → frame X m1 m3.
Proof.
  intros [Hlen1 H1] [Hlen2 H2]. split; [congruence|].
  intros w b Hw Hb. destruct (H1 w b Hw Hb) as [(b' & Hw' & Hb') Hk].
  destruct (H2 w b' Hw' Hb') as [Hd Hk']. split; [done|].
  intros HX. apply (H2 w b); auto.
Qed.

Lemma frame_set_undef X m v b m' :
  get m v = Some l_undef → set m v b = Some m' → b ≠ l_undef →
  frame X m m'.
Proof.
  intros Hv Hset Hb. split; [by eapply set_length|].
  intros w c Hw Hc. destruct (decide (v = w)) as [->|Hne]; [congruence|].
  unfold is_defined. rewrite (get_set_ne _ _ _ _ _ Hset Hne).
  split; [by exists c|done].
Qed.

Lemma frame_set_own m x b m' :
  set m x b = Some m' → b ≠ l_undef → frame (eq x) m m'.
Proof.
  intros Hset Hb. split; [by eapply set_length|].
  intros w c Hw Hc. destruct (decide (x = w)) as [<-|Hne].
  - split; [|done]. exists b. split; [by eapply get_set_eq|done].
  - unfold is_defined. rewrite (get_set_ne _ _ _ _ _ Hset Hne).
    split; [by exists c|done].
Qed.

Lemma satisfying_defined s : satisfying s ≠ l_undef.
Proof. by destruct s. Qed.

(** The cases of the loop body, as the lemmas below need them. *)
Lemma scan_step_cases x l st c :
  scan_step x l st = Some c →
  (l = null_literal ∧ st_sat st = false ∧
     ∃ m', set (st_m st) x (satisfying (st_var_sign st)) = Some m' ∧
           c = Break m') ∨
  (l = null_literal ∧ st_sat st = true ∧
     c = Continue (mk_state false (st_var_sign st) (st_m st))) ∨
  (l ≠ null_literal ∧ st_sat st = true ∧ c = Continue st) ∨
  (l ≠ null_literal ∧ st_sat st = false ∧
     ∃ r vs, value_at l (st_m st) = Some r ∧
       vs = (if decide (var l = x) then sign l else st_var_sign st) ∧
       ((r = l_true ∧ c = Continue (mk_state true vs (st_m st))) ∨
        (r ≠ l_true ∧ var l ≠ x ∧ get (st_m st) (var l) = Some l_undef ∧
           ∃ m', set (st_m st) (var l) (satisfying (sign l)) = Some m' ∧
                 c = Continue (mk_state true vs m')) ∨
        (r ≠ l_true ∧
           (var l = x ∨ ∃ b, get (st_m st) (var l) = Some b ∧ b ≠ l_undef) ∧
           c = Continue (mk_state false vs (st_m st))))).
Proof.
  destruct st as [sat vs m]. unfold scan_step. simpl.
  intros H. destruct (decide (l = null_literal)) as [Hl|Hl].
  - destruct sat; simpl in H.
    + right; left. by simplify_eq.
    + left. destruct (set m x _) as [m'|] eqn:Hs; simplify_eq/=. eauto.
  - destruct sat; [right; right; left; by simplify_eq|].
    right; right; right. split_and!; [done..|].
    destruct (value_at l m) as [r|] eqn:Hr; simplify_eq/=.
    exists r, (if decide (var l = x) then sign l else vs).
    split_and!; [done..|].
    destruct (decide (r = l_true)) as [Ht|Ht]; [left; by simplify_eq|].
    right. destruct (decide (var l ≠ x)) as [Hne|Heq].
    + destruct (get m (var l)) as [mv|] eqn:Hmv; simplify_eq/=.
      destruct (decide (mv = l_undef)) as [->|Hd].
      * left. destruct (set m (var l) _) as [m'|] eqn:Hs; simplify_eq/=.
        eauto 10.
      * right. simplify_eq. eauto 10.
    + right. simplify_eq. split_and!; [done| |done].
      left. by destruct (decide (var l = x)).
Qed.

Lemma scan_step_frame x l st c :
  scan_step x l st = Some c → frame (eq x) (st_m st) (ctl_model c).
Proof.
  intros H. apply scan_step_cases in H
    as [(_ & _ & m' & Hs & ->)|[(_ & _ & ->)|[(_ & _ & ->)|
        (_ & _ & r & vs & _ & _ & [(_ & ->)|[(_ & _ & Hu & m' & Hs & ->)|
                                             (_ & _ & ->)]])]]]; simpl.
  - eapply frame_set_own; [done|apply satisfying_defined].
  - apply frame_refl.
  - apply frame_refl.
  - apply frame_refl.
  - eapply frame_set_undef; [done..|apply satisfying_defined].
  - apply frame_refl.
Qed.

(** A turn that does not leave the loop keeps every defined value. *)
Lemma scan_step_continue_frame x l st st' :
  scan_step x l st = Some (Continue st') →
  frame (λ _, False) (st_m st) (st_m st').
Proof.
  intros H. apply scan_step_cases in H
    as [(_ & _ & m' & Hs & ?)|[(_ & _ & ?)|[(_ & _ & ?)|
        (_ & _ & r & vs & _ & _ & [(_ & ?)|[(_ & _ & Hu & m' & Hs & ?)|
                                             (_ & _ & ?)]])]]];
    simplify_eq/=; try apply frame_refl.
  eapply frame_set_undef; [done..|apply satisfying_defined].
Qed.

Lemma scan_frame x ls st c :
  scan x ls st = Some c → frame (eq x) (st_m st) (ctl_model c).
Proof.
  revert st. induction ls as [|l ls IH]; intros st H; simpl in H.
  - simplify_eq/=. apply frame_refl.
  - destruct (scan_step x l st) as [[st1|m1]|] eqn:Hstep; simplify_eq/=.
    + eapply frame_trans; [by eapply (scan_step_frame _ _ _ _ Hstep)|].
      by apply IH.
    + by apply (scan_step_frame _ _ _ _ Hstep).
Qed.

Lemma scan_continue_frame x ls st st' :
  scan x ls st = Some (Continue st') →
  frame (λ _, False) (st_m st) (st_m st').
Proof.
  revert st. induction ls as [|l ls IH]; intros st H; simpl in H.
  - simplify_eq/=. apply frame_refl.
  - destruct (scan_step x l st) as [[st1|m1]|] eqn:Hstep; simplify_eq/=.
    eapply frame_trans; [by eapply scan_step_continue_frame|by apply IH].
Qed.

Lemma patch_frame e m m' :
  patch e m = Some m' → frame (eq (m_var e)) m m'.
Proof.
  unfold patch. intros H.
  destruct (scan _ _ _) as [c|] eqn:Hscan; simplify_eq/=.
  by apply scan_frame in Hscan.
Qed.

Lemma apply_entry_patch debug e m m' :
  apply_entry debug e m = Some m' → patch e m = Some m'.
Proof.
  unfold apply_entry. intros H.
  destruct (sassert _ _); simplify_eq/=.
  destruct (patch e m) as [m1|]; simplify_eq/=.
  by destruct (debug_code _ _); simplify_eq/=.
Qed.

Lemma apply_entry_release e m : apply_entry false e m = patch e m.
Proof. unfold apply_entry. simpl. by destruct (patch e m). Qed.

Lemma apply_loop_frame debug its m m' :
  apply_loop debug its m = Some m' → frame (owned its) m m'.
Proof.
  revert m. induction its as [|e its IH]; intros m H; simpl in H.
  - simplify_eq. apply frame_refl.
  - destruct (apply_entry debug e m) as [m1|] eqn:He; simplify_eq/=.
    apply apply_entry_patch, patch_frame in He.
    eapply frame_trans.
    + eapply frame_weaken; [|exact He].
      intros w <-. exists e. split; [left|done].
    + eapply frame_weaken; [|by apply IH].
      intros w (e' & Hin & Hw). exists e'. split; [by right|done].
Qed.

Lemma owned_reverse es w : owned (reverse es) w ↔ owned es w.
Proof.
  unfold owned. split; intros (e & Hin & Hw); exists e;
    (split; [|done]); by apply elem_of_reverse.
Qed.

Lemma apply_frame debug es m m' :
  apply debug es m = Some m' → frame (owned es) m m'.
Proof.
  intros H%apply_loop_frame.
  eapply frame_weaken; [|done]. intros w. apply owned_reverse.
Qed.

(** C9.  [apply] leaves a variable that had a defined value with that
    value, unless the variable is the variable of some entry of the
    ledger; and within one turn of the scan of an entry, a variable other
    than the entry's own changes only if it was [l_undef] when the turn
    began. *)
Theorem apply_keeps_defined_values :
  (∀ debug m_entries m m' w b,
     apply debug m_entries m = Some m' →
     get m w = Some b → b ≠ l_undef →
     ¬ owned m_entries w →
     get m' w = Some b) ∧
  (∀ x l st c w,
     scan_step x l st = Some c →
     w ≠ x →
     get (ctl_model c) w ≠ get (st_m st) w →
     get (st_m st) w = Some l_undef).
Proof.
  split.
  - intros debug es m m' w b Happ Hw Hb Hown.
    apply apply_frame in Happ as [_ H]. by apply (H w b).
  - intros x l st c w Hstep Hne Hchg.
    apply scan_step_frame in Hstep as [Hlen H].
    destruct (get (st_m st) w) as [b|] eqn:Hw.
    + destruct (decide (b = l_undef)) as [->|Hb]; [done|].
      destruct (H w b Hw Hb) as [_ Hk]. rewrite Hk in Hchg; [done|].
      by intros ->.
    + exfalso. apply Hchg. unfold get in *.
      apply lookup_ge_None in Hw. apply lookup_ge_None. lia.
Qed.

Lemma apply_keeps_defined_values_witness :
  apply true [entry_A] model_A = Some [l_true; l_false; l_true; l_false] ∧
  get [l_true; l_false; l_true; l_false] 1 = Some l_false.
Proof.
  destruct apply_keeps_defined_values as [H _].
  split; [reflexivity|].
  apply (H true [entry_A] model_A
           [l_true; l_false; l_true; l_false] 1%N l_false);
    [reflexivity|reflexivity|discriminate|].
  intros (e & He & Hv). apply list_elem_of_singleton in He as ->.
  discriminate Hv.
Defined.

(** ** The scan of one clause *)

Lemma scan_app x c rest st :
  scan x (c ++ rest) st =
  match scan x c st with
  | Some (Continue st') => scan x rest st'
  | o => o
  end.
Proof.
  revert st. induction c as [|l c IH]; intros st; simpl; [done|].
  destruct (scan_step x l st) as [[st1|m1]|]; simpl; [apply IH|done..].
Qed.

Lemma last_polarity_cons x l c vs :
  default vs (last_polarity x (l :: c)) =
  default (if decide (var l = x) then sign l else vs) (last_polarity x c).
Proof.
  unfold last_polarity. rewrite filter_cons.
  destruct (decide (var l = x)) as [Hx|Hx]; [|done].
  rewrite last_cons. by destruct (last _).
Qed.

(** A clause that reaches its end without being marked satisfied was
    scanned whole: the model is as it was and [var_sign] is the sign of
    the last literal over [x], or what it was if there is none. *)
Lemma scan_clause_unsatisfied x c st st' :
  Forall (λ l, l ≠ null_literal) c →
  scan x c st = Some (Continue st') →
  st_sat st' = false →
  st_sat st = false ∧ st_m st' = st_m st ∧
  st_var_sign st' = default (st_var_sign st) (last_polarity x c).
Proof.
  intros Hc. revert st.
  induction Hc as [|l c Hl Hc IH]; intros st Hscan Hsat; simpl in Hscan.
  - by simplify_eq.
  - destruct (scan_step x l st) as [[st1|m1]|] eqn:Hstep; simplify_eq/=.
    destruct (IH _ Hscan Hsat) as (Hsat1 & Hm & Hvs).
    rewrite last_polarity_cons.
    apply scan_step_cases in Hstep
      as [(? & _)|[(? & _)|[(_ & ? & ?)|
          (_ & ? & r & vs & _ & ? & [(_ & ?)|[(_ & _ & _ & m' & _ & ?)|
                                               (_ & _ & ?)]])]]];
      simplify_eq/=; try done.
    by rewrite Hsat1 in *.
Qed.

(** C5.  When the scan of the entry of [x] comes to the end of a clause
    [c] that it has not marked satisfied, and [c] has a literal over [x]
    whose last occurrence has sign [s], the separator makes the scan stop
    there, whatever follows, with [x] set to false if [s] is the negative
    sign and to true otherwise, and nothing else changed.  On the ledger
    of Scenario A, with variable 1 false and variable 3 not assigned,
    [apply] sets variable 3 to false. *)
Theorem scan_unsatisfied_clause_assigns :
  (∀ x c rest st st' s,
     Forall (λ l, l ≠ null_literal) c →
     scan x c st = Some (Continue st') →
     st_sat st' = false →
     last_polarity x c = Some s →
     N.to_nat x < length (st_m st) ∧
     scan x (c ++ null_literal :: rest) st =
       Some (Break (<[N.to_nat x := if s then l_false else l_true]>
                      (st_m st)))) ∧
  (∀ debug b0 b2,
     apply debug [entry_A] [b0; l_false; b2; l_undef] =
       Some [b0; l_false; b2; l_false]).
Proof.
  split.
  - intros x c rest st st' s Hc Hscan Hsat Hlast.
    assert (N.to_nat x < length (st_m st)) as Hlt.
    { unfold last_polarity in Hlast.
      destruct (last _) as [l|] eqn:Hl; simplify_eq/=.
      apply last_Some_elem_of, list_elem_of_filter in Hl as [Hx Hin].
      revert st Hscan Hsat.
      induction Hc as [|l' c Hl' Hc IH]; intros st Hscan Hsat;
        [by apply not_elem_of_nil in Hin|].
      simpl in Hscan.
      destruct (scan_step x l' st) as [[st1|m1]|] eqn:Hstep; simplify_eq/=.
      destruct (scan_clause_unsatisfied _ _ _ _ Hc Hscan Hsat)
        as (Hsat1 & _ & _).
      pose proof (scan_step_continue_frame _ _ _ _ Hstep) as [Hlen _].
      apply elem_of_cons in Hin as [<-|Hin].
      - apply scan_step_cases in Hstep
          as [(? & _)|[(? & _)|[(_ & ? & ?)|
              (_ & ? & r & vs & Hr & _)]]]; simplify_eq/=.
        + by rewrite Hsat1 in *.
        + unfold value_at in Hr.
          destruct (get (st_m st) (var l)) as [b|] eqn:Hg; simplify_eq/=.
          by apply get_Some_lt in Hg.
      - rewrite <- Hlen. by apply IH. }
    destruct (scan_clause_unsatisfied _ _ _ _ Hc Hscan Hsat)
      as (Hsat0 & Hm & Hvs).
    rewrite Hlast in Hvs. simpl in Hvs.
    split; [done|].
    rewrite scan_app, Hscan. simpl.
    destruct st' as [sat' vs' m']. simpl in *. subst.
    simpl. rewrite set_in_range by done. done.
  - intros [] [] []; reflexivity.
Qed.

Lemma scan_unsatisfied_clause_assigns_witness :
  scan 3 (m_clauses entry_A) (mk_state false false model_A) =
    Some (Break [l_true; l_false; l_true; l_false]).
Proof.
  destruct scan_unsatisfied_clause_assigns as [H _].
  destruct (H 3%N [pos 1; neg 3] [] (mk_state false false model_A)
              (mk_state false true model_A) true) as [_ Heq].
  - repeat constructor; discriminate.
  - reflexivity.
  - reflexivity.
  - reflexivity.
  - exact Heq.
Defined.

(** ** [check_model] *)

Lemma check_clauses_ok_false ls sat m b :
  check_clauses ls sat false m = Some b → b = false.
Proof.
  revert sat. induction ls as [|l ls IH]; intros sat H; simpl in H.
  - by simplify_eq.
  - destruct (decide (l = null_literal)).
    { destruct sat; simpl in H; by eapply IH. }
    destruct sat; [by eapply IH|].
    destruct (value_at l m); simplify_eq/=. by eapply IH.
Qed.

Lemma unsatisfied_nil m : false = true ↔ clause_satisfied m [].
Proof.
  unfold clause_satisfied. rewrite Exists_nil. split; [done|tauto].
Qed.

Lemma clause_satisfied_snoc m cur l :
  clause_satisfied m (cur ++ [l]) ↔
  clause_satisfied m cur ∨ value_at l m = Some l_true.
Proof.
  unfold clause_satisfied. rewrite Exists_app, Exists_cons, Exists_nil.
  tauto.
Qed.

(** The flag comes back true exactly when it was true on entry and every
    clause that ends in the rest of the sequence has a true literal;
    [cur] is the part of the current clause already read and [sat] says
    whether a true literal was met in it. *)
Lemma check_clauses_spec ls cur sat ok m b :
  (sat = true ↔ clause_satisfied m cur) →
  check_clauses ls sat ok m = Some b →
  (b = true ↔ ok = true ∧ Forall (clause_satisfied m) (split_clauses ls cur)).
Proof.
  revert cur sat ok.
  induction ls as [|l ls IH]; intros cur sat ok Hsat H; simpl in H |- *.
  - simplify_eq. rewrite Forall_nil. tauto.
  - destruct (decide (l = null_literal)) as [Hl|Hl].
    + apply (IH []) in H.
      2:{ apply unsatisfied_nil. }
      rewrite H, Forall_cons, <- Hsat.
      destruct sat, ok; simpl; intuition congruence.
    + destruct sat.
      * apply (IH (cur ++ [l])) in H; [done|].
        rewrite clause_satisfied_snoc. tauto.
      * destruct (value_at l m) as [r|] eqn:Hr; simplify_eq/=.
        apply (IH (cur ++ [l])) in H; [done|].
        rewrite clause_satisfied_snoc, bool_decide_eq_true.
        split; [intros ->; by right|]. intros [?%Hsat|?]; [done|congruence].
Qed.

Lemma check_clauses_total ls sat ok m :
  (∀ l, l ∈ ls → l ≠ null_literal → N.to_nat (var l) < length m) →
  is_Some (check_clauses ls sat ok m).
Proof.
  revert sat ok. induction ls as [|l ls IH]; intros sat ok Hr; simpl.
  - done.
  - assert (∀ l', l' ∈ ls → l' ≠ null_literal →
                  N.to_nat (var l') < length m) as Hr'.
    { intros l' Hin. apply Hr. by right. }
    destruct (decide (l = null_literal)) as [Hl|Hl]; [by apply IH|].
    destruct sat; [by apply IH|].
    destruct (lookup_lt_is_Some_2 m (N.to_nat (var l))) as [r Hget].
    { apply Hr; [left|done]. }
    unfold value_at, get. rewrite Hget. simpl. by apply IH.
Qed.

Lemma check_model_loop_spec its ok m b :
  check_model_loop its ok m = Some b →
  (b = true ↔ ok = true ∧ all_satisfied its m).
Proof.
  revert ok. induction its as [|e its IH]; intros ok H; simpl in H.
  - simplify_eq. unfold all_satisfied. split; [|tauto].
    intros ->. split; [done|]. by intros e ?%not_elem_of_nil.
  - destruct (check_clauses _ _ _ _) as [ok'|] eqn:Hc; simplify_eq/=.
    apply IH in H. apply (check_clauses_spec _ []) in Hc.
    2:{ apply unsatisfied_nil. }
    rewrite H, Hc. unfold all_satisfied. split.
    + intros [[-> He] Hits]. split; [done|].
      intros e' [->|Hin]%elem_of_cons; [done|by apply Hits].
    + intros [-> Hall]. split_and!; [done|..].
      * apply Hall. by left.
      * intros e' Hin. apply Hall. by right.
Qed.

Lemma check_model_loop_total its ok m :
  in_range its m → is_Some (check_model_loop its ok m).
Proof.
  revert ok. induction its as [|e its IH]; intros ok Hr; simpl; [done|].
  destruct (check_clauses_total (m_clauses e) false ok m) as [ok' ->].
  { intros l Hin. apply (Hr e); [left|done]. }
  simpl. apply IH. intros e' l Hin. apply Hr. by right.
Qed.

Lemma all_satisfied_reverse es m :
  all_satisfied (reverse es) m ↔ all_satisfied es m.
Proof.
  unfold all_satisfied. split; intros H e Hin; apply H;
    by apply elem_of_reverse.
Qed.

(** C4.  [check_model] is a function of the ledger and the model that
    yields only a flag, so it changes neither.  Whenever it returns, the
    flag is true exactly when every clause of every entry has a literal
    that evaluates to true under the model, hence false as soon as one
    clause has none; and it does return when the variables of the
    ledger's literals are indices of the model. *)
Theorem check_model_iff_all_satisfied (m_entries : list entry) (m : model) :
  (∀ b, check_model m_entries m = Some b →
        (b = true ↔ all_satisfied m_entries m)) ∧
  (in_range m_entries m → is_Some (check_model m_entries m)).
Proof.
  unfold check_model. split.
  - intros b H%check_model_loop_spec.
    rewrite H, all_satisfied_reverse. tauto.
  - intros Hr. apply check_model_loop_total.
    intros e l Hin. apply Hr. by apply elem_of_reverse.
Qed.

Lemma check_model_iff_all_satisfied_witness :
  all_satisfied [entry_A] [l_true; l_false; l_true; l_false] ∧
  ¬ all_satisfied [entry_R] [l_true; l_false; l_false; l_true].
Proof.
  split.
  - apply (proj1 (check_model_iff_all_satisfied [entry_A]
                    [l_true; l_false; l_true; l_false]) true);
      reflexivity.
  - intros H.
    apply (proj1 (check_model_iff_all_satisfied [entry_R]
                    [l_true; l_false; l_false; l_true]) false) in H;
      [discriminate H|reflexivity].
Defined.

(** ** Replaying over a model that already satisfies the ledger *)

Lemma is_defined_dec m w : is_defined m w ∨ ¬ is_defined m w.
Proof.
  unfold is_defined. destruct (get m w) as [[]|].
  - left; by eexists.
  - right; intros (b & ? & ?); congruence.
  - left; by eexists.
  - right; intros (b & ? & ?); congruence.
Qed.

Lemma owned_dec es w : owned es w ∨ ¬ owned es w.
Proof.
  destruct (decide (Exists (λ e, m_var e = w) es)) as [H|H];
    rewrite Exists_exists in H; [by left|by right].
Qed.

(** With every literal's variable defined and every clause satisfied,
    the scan assigns nothing and does not leave the loop. *)
Lemma scan_noop x ls sat vs m :
  check_clauses ls sat true m = Some true →
  (∀ l, l ∈ ls → l ≠ null_literal → is_defined m (var l)) →
  ∃ sat' vs', scan x ls (mk_state sat vs m)
              = Some (Continue (mk_state sat' vs' m)).
Proof.
  revert sat vs. induction ls as [|l ls IH]; intros sat vs Hc Hd.
  - simpl. eauto.
  - assert (∀ l', l' ∈ ls → l' ≠ null_literal → is_defined m (var l'))
      as Hd' by (intros l' Hin; apply Hd; by right).
    simpl in Hc. cbn [scan scan_step].
    destruct (decide (l = null_literal)) as [Hl|Hl].
    + destruct sat; simpl in Hc |- *.
      * by apply IH.
      * by apply check_clauses_ok_false in Hc.
    + destruct sat; simpl; [by apply IH|].
      destruct (value_at l m) as [r|] eqn:Hr; simplify_eq/=.
      destruct (decide (r = l_true)) as [->|Ht]; simpl.
      { rewrite bool_decide_eq_true_2 in Hc by done. by apply IH. }
      rewrite bool_decide_eq_false_2 in Hc by done.
      destruct (decide (var l ≠ x)) as [Hx|Hx]; simpl; [|by apply IH].
      destruct (Hd l) as (b & -> & Hb); [by left|done|]. simpl.
      destruct (decide (b = l_undef)); [done|]. simpl. by apply IH.
Qed.

Lemma all_satisfied_check_clauses es m e :
  in_range es m → all_satisfied es m → e ∈ es →
  check_clauses (m_clauses e) false true m = Some true.
Proof.
  intros Hr Hs He.
  destruct (check_clauses_total (m_clauses e) false true m) as [b Hb].
  { intros l. by apply Hr. }
  rewrite Hb. f_equal.
  apply (check_clauses_spec _ [] _ _ _ _) in Hb.
  - apply Hb. split; [done|]. by apply Hs.
  - apply unsatisfied_nil.
Qed.

Lemma patch_noop es m e :
  in_range es m → all_satisfied es m →
  (∀ w, N.to_nat w < length m → is_defined m w) →
  e ∈ es → patch e m = Some m.
Proof.
  intros Hr Hs Hd He. unfold patch.
  destruct (scan_noop (m_var e) (m_clauses e) false false m)
    as (sat' & vs' & ->); [by eapply all_satisfied_check_clauses| |done].
  intros l Hin Hl. apply Hd. by eapply Hr.
Qed.

(** C6, with the precondition of [apply] added.  On a model that the
    literals of the ledger index: if the variables of the entries are
    defined, every clause of every entry is satisfied, and every variable
    of the model that no entry owns is defined too, then [apply] returns
    the model as it was.  A debug build either does the same or stops at
    the assertion that an [ELIM_VAR] variable is [l_undef]. *)
Theorem apply_noop_on_total_model (m_entries : list entry) (m : model) :
  in_range m_entries m →
  (∀ e, e ∈ m_entries → is_defined m (m_var e)) →
  all_satisfied m_entries m →
  (∀ w, N.to_nat w < length m → ¬ owned m_entries w → is_defined m w) →
  apply false m_entries m = Some m ∧
  (∀ m', apply true m_entries m = Some m' → m' = m).
Proof.
  intros Hr Hown Hs Hfree.
  assert (∀ w, N.to_nat w < length m → is_defined m w) as Hd.
  { intros w Hw. destruct (owned_dec m_entries w) as [(e & He & <-)|Hn].
    - by apply Hown.
    - by apply Hfree. }
  assert (∀ e, e ∈ reverse m_entries → patch e m = Some m) as Hp.
  { intros e He. rewrite elem_of_reverse in He.
    by apply (patch_noop m_entries). }
  unfold apply. clear -Hp. split.
  - induction (reverse m_entries) as [|e its IH]; simpl; [done|].
    rewrite apply_entry_release, Hp by left. simpl.
    apply IH. intros e' He'. apply Hp. by right.
  - induction (reverse m_entries) as [|e its IH]; simpl; intros m' H.
    + by simplify_eq.
    + destruct (apply_entry true e m) as [m1|] eqn:He; simplify_eq/=.
      apply apply_entry_patch in He. rewrite Hp in He by left.
      simplify_eq. apply IH; [|done]. intros e' He'. apply Hp. by right.
Qed.

Lemma apply_noop_on_total_model_witness :
  apply false [entry_A] [l_true; l_false; l_true; l_false]
  = Some [l_true; l_false; l_true; l_false].
Proof.
  apply apply_noop_on_total_model.
  - intros e l ->%list_elem_of_singleton Hl Hn. simpl in Hl.
    apply elem_of_cons in Hl as [->|Hl]; [vm_compute; lia|].
    apply elem_of_cons in Hl as [->|Hl]; [vm_compute; lia|].
    by apply list_elem_of_singleton in Hl as ->.
  - intros e ->%list_elem_of_singleton. by exists l_false.
  - intros e ->%list_elem_of_singleton. unfold clauses_of. simpl.
    constructor; [|constructor]. unfold clause_satisfied.
    apply Exists_cons_tl, Exists_cons_hd. reflexivity.
  - intros w Hw _. simpl in Hw.
    destruct (decide (w = 0%N)) as [->|?]; [by exists l_true|].
    destruct (decide (w = 1%N)) as [->|?]; [by exists l_false|].
    destruct (decide (w = 2%N)) as [->|?]; [by exists l_true|].
    destruct (decide (w = 3%N)) as [->|?]; [by exists l_false|lia].
Defined.

(** C6, as stated, fails when a variable that no entry owns is not
    assigned: variable 3 is defined and satisfies the only clause of
    [entry_B], yet [apply] gives variable 1 a value. *)
Lemma apply_assigns_free_variable :
  is_defined [l_true; l_undef; l_true; l_true] (m_var entry_B) ∧
  check_model [entry_B] [l_true; l_undef; l_true; l_true] = Some true ∧
  apply false [entry_B] [l_true; l_undef; l_true; l_true]
    = Some [l_true; l_true; l_true; l_true] ∧
  apply true [entry_B] [l_true; l_undef; l_true; l_true]
    = Some [l_true; l_true; l_true; l_true].
Proof. split_and!; [by exists l_true|reflexivity..]. Qed.

(** ** Satisfaction is kept by frames *)

Lemma value_at_true_get l m :
  value_at l m = Some l_true ↔
  get m (var l) = Some (satisfying (sign l)).
Proof.
  unfold value_at, satisfying.
  destruct (get m (var l)) as [[]|], (sign l); simpl; split; congruence.
Qed.

Lemma value_at_length l m m' :
  length m' = length m → is_Some (value_at l m) → is_Some (value_at l m').
Proof.
  unfold value_at, get. intros Hlen [r Hr].
  destruct (m !! N.to_nat (var l)) as [b|] eqn:Hb; simplify_eq/=.
  apply lookup_lt_Some in Hb.
  destruct (lookup_lt_is_Some_2 m' (N.to_nat (var l))) as [b' ->]; [lia|].
  simpl. eauto.
Qed.

Lemma frame_value_at X m m' l :
  frame X m m' → ¬ X (var l) →
  value_at l m = Some l_true → value_at l m' = Some l_true.
Proof.
  intros [_ H] HX. rewrite !value_at_true_get. intros Hg.
  by apply (H _ _ Hg); [apply satisfying_defined|].
Qed.

Lemma value_at_set_satisfying l m m' :
  set m (var l) (satisfying (sign l)) = Some m' →
  value_at l m' = Some l_true.
Proof. intros Hs. rewrite value_at_true_get. by eapply get_set_eq. Qed.

(** The check of a clause sequence still passes when the model is
    replaced by one that keeps the literals that were true, and when the
    current clause is further along towards being satisfied. *)
Lemma check_clauses_mono ls sat sat' m m' :
  length m' = length m →
  (∀ l, l ∈ ls → l ≠ null_literal →
        value_at l m = Some l_true → value_at l m' = Some l_true) →
  (sat = true → sat' = true) →
  check_clauses ls sat true m = Some true →
  check_clauses ls sat' true m' = Some true.
Proof.
  intros Hlen. revert sat sat'.
  induction ls as [|l ls IH]; intros sat sat' Hk Hsat Hc; [done|].
  assert (∀ l', l' ∈ ls → l' ≠ null_literal →
                value_at l' m = Some l_true → value_at l' m' = Some l_true)
    as Hk' by (intros l' Hin; apply Hk; by right).
  simpl in Hc |- *. destruct (decide (l = null_literal)) as [Hl|Hl].
  - destruct sat; simpl in Hc; [|by apply check_clauses_ok_false in Hc].
    rewrite Hsat by done. simpl. by apply (IH false false).
  - destruct sat'.
    + destruct sat; [by apply (IH true true)|].
      destruct (value_at l m) as [r|]; simplify_eq/=.
      by apply (IH (bool_decide (r = l_true)) true).
    + destruct sat; [by discriminate Hsat|].
      destruct (value_at l m) as [r|] eqn:Hr; simplify_eq/=.
      destruct (value_at_length l m m' Hlen) as [r' Hr']; [by eauto|].
      rewrite Hr'. simpl.
      apply (IH (bool_decide (r = l_true))); [done| |done].
      rewrite !bool_decide_eq_true. intros ->.
      specialize (Hk l (list_elem_of_here _ _) Hl Hr). congruence.
Qed.

(** A scan that runs to the end of the sequence leaves a model under
    which every clause it went through is satisfied. *)
Lemma scan_continue_check x ls st st' :
  scan x ls st = Some (Continue st') →
  check_clauses ls (st_sat st) true (st_m st') = Some true.
Proof.
  revert st. induction ls as [|l ls IH]; intros st Hscan; [done|].
  simpl in Hscan.
  destruct (scan_step x l st) as [[st1|m1]|] eqn:Hstep; simplify_eq/=.
  pose proof (IH _ Hscan) as Hc.
  pose proof (scan_continue_frame _ _ _ _ Hscan) as Hf.
  apply scan_step_cases in Hstep
    as [(_ & _ & m' & _ & ?)|[(Hl & Hsat & ?)|[(Hl & Hsat & ?)|
        (Hl & Hsat & r & vs & Hr & _ &
           [(? & ?)|[(_ & _ & _ & m' & Hs & ?)|(_ & _ & ?)]])]]];
    simplify_eq/=; rewrite Hsat in *; simpl in *; try done;
    destruct (decide (l = null_literal)); try done.
  - by rewrite (frame_value_at _ _ _ _ Hf) by tauto.
  - by rewrite (frame_value_at _ _ _ _ Hf);
      [|tauto|by eapply value_at_set_satisfying].
  - destruct Hf as [Hlen _].
    destruct (value_at_length l _ _ Hlen) as [r' ->]; [by eauto|].
    simpl. by apply (check_clauses_mono ls false _ (st_m st') (st_m st')).
Qed.

Lemma apply_loop_app debug its1 its2 m :
  apply_loop debug (its1 ++ its2) m =
  apply_loop debug its1 m ≫= apply_loop debug its2.
Proof.
  revert m. induction its1 as [|e its1 IH]; intros m; simpl; [done|].
  destruct (apply_entry debug e m); simpl; [apply IH|done].
Qed.

Lemma frame_undefined X m m' w :
  frame X m m' → ¬ is_defined m' w → get m' w = get m w.
Proof.
  intros [Hlen H] Hn. unfold get in *.
  destruct (m !! N.to_nat w) as [b|] eqn:Hb.
  - destruct (decide (b = l_undef)) as [->|Hd].
    + apply lookup_lt_Some in Hb.
      destruct (lookup_lt_is_Some_2 m' (N.to_nat w)) as [b' Hb']; [lia|].
      rewrite Hb'. f_equal. destruct (decide (b' = l_undef)); [done|].
      exfalso. apply Hn. by exists b'.
    + exfalso. apply Hn. by apply (H w b).
  - apply lookup_ge_None in Hb. apply lookup_ge_None. lia.
Qed.

(** C2, as the code has it.  When [apply] returns, every variable that
    was defined is still defined; and for each entry, either its variable
    is defined, or its variable is as it was before the call and, when
    the entry was scanned (after the entries that follow it in the
    ledger), every clause of the entry was satisfied without it. *)
Theorem apply_defines_or_leaves (debug : bool) (es1 : list entry)
    (e : entry) (es2 : list entry) (m m' : model) :
  apply debug (es1 ++ e :: es2) m = Some m' →
  (∀ w, is_defined m w → is_defined m' w) ∧
  (is_defined m' (m_var e) ∨
   get m' (m_var e) = get m (m_var e) ∧
   ∃ m2 m3, apply debug es2 m = Some m2 ∧ patch e m2 = Some m3 ∧
            get m3 (m_var e) = get m (m_var e) ∧
            Forall (clause_satisfied m3) (clauses_of e)).
Proof.
  intros Happ. pose proof (apply_frame _ _ _ _ Happ) as Hf. split.
  { intros w (b & Hb & Hd). by apply (proj2 Hf w b). }
  destruct (is_defined_dec m' (m_var e)) as [Hd|Hn]; [by left|right].
  split; [by eapply frame_undefined|].
  unfold apply in Happ |- *.
  rewrite reverse_app, reverse_cons, <- app_assoc, apply_loop_app in Happ.
  destruct (apply_loop debug (reverse es2) m) as [m2|] eqn:H2;
    simplify_eq/=.
  destruct (apply_entry debug e m2) as [m3|] eqn:He; simplify_eq/=.
  apply apply_entry_patch in He.
  pose proof (apply_loop_frame _ _ _ _ H2) as Hf2.
  pose proof (patch_frame _ _ _ He) as Hfe.
  pose proof (apply_loop_frame _ _ _ _ Happ) as Hf1.
  assert (¬ is_defined m3 (m_var e)) as Hn3.
  { intros (b & Hb & Hd). by apply Hn, (proj2 Hf1 _ b). }
  assert (¬ is_defined m2 (m_var e)) as Hn2.
  { intros (b & Hb & Hd). by apply Hn3, (proj2 Hfe _ b). }
  exists m2, m3. split_and!; [done..| |].
  { rewrite (frame_undefined _ _ _ _ Hfe Hn3).
    by rewrite (frame_undefined _ _ _ _ Hf2 Hn2). }
  unfold patch in He.
  destruct (scan _ _ _) as [[st'|mb]|] eqn:Hscan; simplify_eq/=.
  - apply scan_continue_check in Hscan. simpl in Hscan.
    apply (check_clauses_spec _ []) in Hscan; [by apply Hscan|].
    apply unsatisfied_nil.
  - exfalso. apply Hn3. clear -Hscan.
    remember (mk_state false false m2) as st eqn:Hst. clear Hst.
    revert st Hscan.
    induction (m_clauses e) as [|l ls IH]; intros st Hscan; [done|].
    simpl in Hscan.
    destruct (scan_step (m_var e) l st) as [[st1|m1]|] eqn:Hstep;
      simplify_eq/=; [by eapply IH|].
    apply scan_step_cases in Hstep
      as [(_ & _ & m' & Hs & ?)|[(_ & _ & ?)|[(_ & _ & ?)|
          (_ & _ & r & vs & _ & _ & [(_ & ?)|[(_ & _ & _ & m' & _ & ?)|
                                              (_ & _ & ?)]])]]];
      simplify_eq/=.
    eexists. split; [by eapply get_set_eq|apply satisfying_defined].
Qed.

Lemma apply_defines_or_leaves_witness :
  is_defined [l_true; l_false; l_true; l_false] (m_var entry_A) ∨
  get [l_true; l_false; l_true; l_false] (m_var entry_A)
    = get model_A (m_var entry_A) ∧
  ∃ m2 m3, apply true [] model_A = Some m2 ∧ patch entry_A m2 = Some m3 ∧
           get m3 (m_var entry_A) = get model_A (m_var entry_A) ∧
           Forall (clause_satisfied m3) (clauses_of entry_A).
Proof.
  apply (apply_defines_or_leaves true [] entry_A [] model_A).
  reflexivity.
Defined.

(** C2, as stated, fails on Scenario B: with variable 1 true the only
    clause of [entry_A] is satisfied without variable 3, which [apply]
    leaves [l_undef], in a release and in a debug build alike. *)
Lemma apply_leaves_subject_undefined :
  apply false [entry_A] [l_true; l_true; l_true; l_undef]
    = Some [l_true; l_true; l_true; l_undef] ∧
  apply true [entry_A] [l_true; l_true; l_true; l_undef]
    = Some [l_true; l_true; l_true; l_undef] ∧
  get [l_true; l_true; l_true; l_undef] (m_var entry_A) = Some l_undef.
Proof. split_and!; reflexivity. Qed.

(** ** Replay, then check *)

Lemma assert_satisfied_check ls sat m :
  assert_satisfied ls sat m = Some tt →
  check_clauses ls sat true m = Some true.
Proof.
  revert sat. induction ls as [|l ls IH]; intros sat H; simpl in H |- *.
  - done.
  - destruct (decide (l = null_literal)).
    + destruct sat; [by apply IH|done].
    + destruct sat; [by apply IH|].
      destruct (value_at l m); simplify_eq/=. by apply IH.
Qed.

Lemma apply_entry_debug_check e m m' :
  apply_entry true e m = Some m' →
  check_clauses (m_clauses e) false true m' = Some true.
Proof.
  unfold apply_entry. intros H.
  destruct (sassert _ _); simplify_eq/=.
  destruct (patch e m) as [m1|]; simplify_eq/=.
  destruct (assert_satisfied _ _ _) as [[]|] eqn:Ha; simplify_eq/=.
  by apply assert_satisfied_check.
Qed.

Lemma check_model_loop_ok_true its m :
  (∀ e, e ∈ its → check_clauses (m_clauses e) false true m = Some true) →
  check_model_loop its true m = Some true.
Proof.
  induction its as [|e its IH]; intros H; simpl; [done|].
  rewrite H by left. simpl. apply IH. intros e' He'. apply H. by right.
Qed.

(** In a debug build, a replay that returns leaves every entry checked,
    provided the entries visited after an entry do not own a variable
    that the entry mentions. *)
Lemma apply_loop_debug_checked its m m' :
  (∀ a e b e', its = a ++ e :: b → e' ∈ b → ¬ mentions (m_var e') e) →
  apply_loop true its m = Some m' →
  ∀ e, e ∈ its → check_clauses (m_clauses e) false true m' = Some true.
Proof.
  revert m. induction its as [|e0 its IH]; intros m Hord Happ e He.
  { by apply not_elem_of_nil in He. }
  simpl in Happ.
  destruct (apply_entry true e0 m) as [m1|] eqn:H0; simplify_eq/=.
  apply elem_of_cons in He as [->|He].
  - pose proof (apply_loop_frame _ _ _ _ Happ) as Hf.
    apply apply_entry_debug_check in H0.
    eapply check_clauses_mono; [apply Hf| |done|exact H0].
    intros l Hl Hn. apply (frame_value_at _ _ _ _ Hf).
    intros (e' & He' & Hv). apply (Hord [] e0 its e' eq_refl He').
    by exists l.
  - apply (IH m1); [|done..].
    intros a e1 b e' ->. by apply (Hord (e0 :: a) e1 b e').
Qed.

Lemma apply_loop_debug_release its m m' :
  apply_loop true its m = Some m' → apply_loop false its m = Some m'.
Proof.
  revert m. induction its as [|e its IH]; intros m H; simpl in H |- *.
  - done.
  - destruct (apply_entry true e m) as [m1|] eqn:He; simplify_eq/=.
    apply apply_entry_patch in He. rewrite apply_entry_release, He.
    simpl. by apply IH.
Qed.

Lemma ordered_reverse es a e b e' :
  ordered es → reverse es = a ++ e :: b → e' ∈ b →
  ¬ mentions (m_var e') e.
Proof.
  intros Hord Hrev He'.
  apply (f_equal reverse) in Hrev.
  rewrite reverse_involutive, reverse_app, reverse_cons in Hrev.
  apply elem_of_reverse, list_elem_of_split in He' as (c1 & c2 & Hb).
  rewrite Hb, <- !app_assoc in Hrev. simpl in Hrev.
  apply (Hord c1 e' (c2 ++ e :: reverse a) e Hrev).
  apply elem_of_app. right. left.
Qed.

Lemma check_invariant_ordered n es :
  check_invariant true n es = Some true → blocked_unreferenced es →
  ordered es.
Proof.
  intros Hinv Hblk es1 e es2 e2 -> He2 Hm.
  destruct (get_kind e) eqn:Hk.
  - apply check_invariant_debug in Hinv as [_ Hinv].
    specialize (Hinv Hk). rewrite Forall_forall in Hinv.
    eapply mentions_not_after_ok; [|by apply Hinv]. by right.
  - by apply (Hblk es1 e es2 e2).
Qed.


(** A second way for C1 to fail, with the self-check passing: the later
    entry of [ledger_F] is satisfied through variable 1, which the
    [BLOCK_LIT] entry before it then flips. *)
Example replay_flips_blocked_variable :
  check_invariant true 3 ledger_F = Some true ∧
  apply true ledger_F [l_true; l_true; l_undef]
    = Some [l_true; l_false; l_undef] ∧
  check_model ledger_F [l_true; l_false; l_undef] = Some false.
Proof. split_and!; reflexivity. Qed.

(** ** The replay returns *)

Lemma scan_step_total x l st :
  N.to_nat x < length (st_m st) →
  (l ≠ null_literal → N.to_nat (var l) < length (st_m st)) →
  is_Some (scan_step x l st).
Proof.
  destruct st as [sat vs m]. simpl. intros Hx Hl. unfold scan_step.
  destruct (decide (l = null_literal)) as [Hn|Hn].
  - destruct sat; simpl; [done|]. by rewrite set_in_range.
  - destruct sat; [done|]. specialize (Hl Hn).
    destruct (lookup_lt_is_Some_2 m (N.to_nat (var l)) Hl) as [b Hb].
    unfold value_at, get. rewrite Hb. simpl.
    destruct (decide (_ = l_true)); [done|].
    destruct (decide (var l ≠ x)); [|done]. simpl.
    destruct (decide (b = l_undef)); [|done].
    by rewrite set_in_range.
Qed.

Lemma scan_total x ls st :
  N.to_nat x < length (st_m st) →
  (∀ l, l ∈ ls → l ≠ null_literal → N.to_nat (var l) < length (st_m st)) →
  is_Some (scan x ls st).
Proof.
  revert st. induction ls as [|l ls IH]; intros st Hx Hr; simpl; [done|].
  destruct (scan_step_total x l st Hx) as [c Hc]; [apply Hr; left|].
  rewrite Hc. simpl. destruct c as [st1|m1]; [|done].
  apply scan_step_frame in Hc as [Hlen _]. simpl in Hlen.
  apply IH; rewrite Hlen; [done|]. intros l' Hin. apply Hr. by right.
Qed.

(** A release build's [apply] returns whenever every variable of the
    ledger is an index of the model. *)
Lemma apply_release_total es m :
  in_range es m → (∀ e, e ∈ es → N.to_nat (m_var e) < length m) →
  is_Some (apply false es m).
Proof.
  intros Hr Hv. unfold apply.
  assert (in_range (reverse es) m) as Hr'.
  { intros e l He. apply Hr. by apply elem_of_reverse. }
  assert (∀ e, e ∈ reverse es → N.to_nat (m_var e) < length m) as Hv'.
  { intros e He. apply Hv. by apply elem_of_reverse. }
  clear Hr Hv. revert m Hr' Hv'.
  induction (reverse es) as [|e its IH]; intros m Hr Hv; simpl; [done|].
  rewrite apply_entry_release. unfold patch.
  destruct (scan_total (m_var e) (m_clauses e) (mk_state false false m))
    as [c Hc]; simpl.
  { apply Hv. left. }
  { intros l Hl. apply (Hr e); [left|done]. }
  rewrite Hc. simpl. apply scan_frame in Hc as [Hlen _]. simpl in Hlen.
  apply IH.
  - intros e' l He' Hl Hn. rewrite Hlen. apply (Hr e'); [by right|done..].
  - intros e' He'. rewrite Hlen. apply Hv. by right.
Qed.

(** * Further properties *)

(** ** [max_var], exactly *)

Lemma max_var_clauses_max ls r :
  max_var_clauses ls r = N.max r (max_var_clauses ls 0).
Proof.
  revert r. induction ls as [|l ls IH]; intros r; simpl; [lia|].
  rewrite IH, (IH (if decide _ then _ else _)).
  case_decide; [|lia].
  destruct (N.ltb_spec r (var l)), (N.ltb_spec 0 (var l)); lia.
Qed.

Lemma max_var_app min es1 es2 :
  max_var min (es1 ++ es2) = max_var (max_var min es1) es2.
Proof. unfold max_var. apply foldl_app. Qed.

Lemma max_var_attained min es :
  max_var min es = min ∨
  ∃ e l, e ∈ es ∧ l ∈ m_clauses e ∧ l ≠ null_literal ∧
         var l = max_var min es.
Proof.
  induction es as [|e es IH] using rev_ind; [by left|].
  rewrite max_var_app. simpl.
  assert (∀ ls r, max_var_clauses ls r = r ∨
            ∃ l, l ∈ ls ∧ l ≠ null_literal ∧ var l = max_var_clauses ls r)
    as Hc.
  { clear. induction ls as [|l ls IH]; intros r; simpl; [by left|].
    destruct (IH (if decide (l ≠ null_literal)
                  then if (r <? var l)%N then var l else r else r))
      as [Heq|(l' & Hin & Hn & Hv)].
    - rewrite Heq. case_decide; [|by left].
      destruct (r <? var l)%N; [right|by left].
      exists l. split_and!; [left|done..].
    - right. exists l'. split_and!; [by right|done..]. }
  destruct (Hc (m_clauses e) (max_var min es)) as [Heq|(l & Hin & Hn & Hv)].
  - rewrite Heq. destruct IH as [IH|(e' & l & He' & Hl & Hn & Hv)];
      [by left|right].
    exists e', l. split_and!; [|done..]. apply elem_of_app. by left.
  - right. exists e, l. split_and!; [|done..].
    apply elem_of_app. right. left.
Qed.

(** X1.  [max_var(min)] is the larger of [min] and what the ledger
    yields from 0; it is [min] itself or the variable of a stored literal
    other than the separator; and asking again with the result as the
    floor changes nothing. *)
Theorem max_var_exact (min : bool_var) (m_entries : list entry) :
  max_var min m_entries = N.max min (max_var 0 m_entries) ∧
  (max_var min m_entries = min ∨
   ∃ e l, e ∈ m_entries ∧ l ∈ m_clauses e ∧ l ≠ null_literal ∧
          var l = max_var min m_entries) ∧
  max_var (max_var min m_entries) m_entries = max_var min m_entries.
Proof.
  assert (∀ r, max_var r m_entries = N.max r (max_var 0 m_entries)) as H.
  { induction m_entries as [|e es IH] using rev_ind; intros r; [simpl; lia|].
    rewrite !max_var_app. simpl.
    rewrite max_var_clauses_max, (max_var_clauses_max _ (max_var 0 es)), IH.
    lia. }
  split_and!; [apply H|apply max_var_attained|].
  rewrite (H (max_var _ _)), (H min). lia.
Qed.

(** ** [collect_vars] *)

Lemma collect_vars_list es s :
  collect_vars es s = list_to_set (m_var <$> es) ∪ s.
Proof.
  unfold collect_vars. revert s.
  induction es as [|e es IH]; intros s; simpl.
  - by rewrite union_empty_l_L.
  - rewrite IH, !union_assoc_L. f_equal. apply union_comm_L.
Qed.

(** X2.  After [collect_vars], the set holds what it held before and
    the variable of every entry, and nothing else; an entry whose variable
    was already there adds nothing. *)
Theorem collect_vars_spec (m_entries : list entry) (s : gset bool_var)
    (v : bool_var) :
  v ∈ collect_vars m_entries s ↔ v ∈ s ∨ owned m_entries v.
Proof.
  rewrite collect_vars_list, elem_of_union, elem_of_list_to_set,
    list_elem_of_fmap. unfold owned. split.
  - intros [(e & -> & He)|Hs]; [right; by exists e|by left].
  - intros [Hs|(e & He & <-)]; [by right|left; by exists e].
Qed.

Lemma check_invariant_eliminated_distinct n es :
  check_invariant true n es = Some true →
  Forall (λ e, get_kind e = ELIM_VAR) es →
  NoDup (m_var <$> es).
Proof.
  induction es as [|e es IH]; intros Hinv Hk; simpl; [constructor|].
  apply Forall_cons in Hk as [Hk Hks].
  pose proof (check_invariant_debug n [] e es Hinv) as [_ Hafter].
  constructor.
  - intros (e2 & Hv & He2)%list_elem_of_fmap.
    specialize (Hafter Hk). rewrite Forall_forall in Hafter.
    destruct (Hafter e2 He2) as [Hne _]. by apply Hne.
  - apply IH; [|done]. simpl in Hinv.
    destruct (m_var e <? n)%N; simpl in Hinv; [|done].
    case_decide; [|done].
    by destruct (check_later _ _ _ _) as [[]|].
Qed.

(** X3.  On a ledger of [ELIM_VAR] entries that passes a debug build's
    [check_invariant], no two entries have the same variable, and
    [collect_vars] into an empty set yields exactly one variable per
    entry. *)
Theorem eliminated_variables_not_reused (num_vars : bool_var)
    (m_entries : list entry) :
  check_invariant true num_vars m_entries = Some true →
  Forall (λ e, get_kind e = ELIM_VAR) m_entries →
  NoDup (m_var <$> m_entries) ∧
  size (collect_vars m_entries ∅) = length m_entries.
Proof.
  intros Hinv Hk.
  pose proof (check_invariant_eliminated_distinct _ _ Hinv Hk) as Hnd.
  split; [done|].
  rewrite collect_vars_list, union_empty_r_L, size_list_to_set by done.
  apply length_fmap.
Qed.

Lemma eliminated_variables_not_reused_witness :
  NoDup (m_var <$> ledger_O) ∧ size (collect_vars ledger_O ∅) = 2.
Proof.
  apply (eliminated_variables_not_reused 6 ledger_O).
  - reflexivity.
  - repeat constructor.
Defined.

(** ** [check_invariant] in a debug build, exactly *)

Lemma check_invariant_debug_intro n es :
  invariant_holds n es → check_invariant true n es = Some true.
Proof.
  induction es as [|e es IH]; intros [Hv Hafter]; simpl; [done|].
  destruct (N.ltb_spec (m_var e) n) as [_|Hge]; simpl.
  2:{ specialize (Hv e (list_elem_of_here _ _)). lia. }
  assert (check_invariant true n es = Some true) as Hrest.
  { apply IH. split.
    - intros e' He'. apply Hv. by right.
    - intros es1 e' es2 -> Hk. by apply (Hafter (e :: es1) e' es2). }
  case_decide as Hk; [|done].
  specialize (Hafter [] e es eq_refl Hk).
  apply check_later_debug in Hafter. by rewrite Hafter.
Qed.

(** X4.  A debug build's [check_invariant] returns true exactly when
    every entry's variable is below [num_vars] and, after each [ELIM_VAR]
    entry for a variable, no later entry has that variable, no stored
    literal of a later entry (the separator included, through its reserved
    index) is over it, and the real literals of later entries are below
    [num_vars]; otherwise it stops at an assertion.  Nothing is asked of
    the clauses of an entry that no [ELIM_VAR] entry precedes. *)
Theorem check_invariant_debug_iff (num_vars : bool_var)
    (m_entries : list entry) :
  (check_invariant true num_vars m_entries = Some true ↔
   invariant_holds num_vars m_entries) ∧
  (¬ invariant_holds num_vars m_entries →
   check_invariant true num_vars m_entries = None) ∧
  (Forall (λ e, get_kind e = BLOCK_LIT) m_entries →
   (∀ e, e ∈ m_entries → (m_var e < num_vars)%N) →
   check_invariant true num_vars m_entries = Some true).
Proof.
  assert (check_invariant true num_vars m_entries = Some true ↔
          invariant_holds num_vars m_entries) as Hiff.
  { split; [|apply check_invariant_debug_intro].
    intros Hinv. split.
    - intros e (es1 & es2 & ->)%list_elem_of_split.
      by apply check_invariant_debug in Hinv as [? _].
    - intros es1 e es2 -> Hk.
      apply check_invariant_debug in Hinv as [_ H]. by apply H. }
  split_and!; [done| |].
  - intros Hn.
    destruct (check_invariant_cases true num_vars m_entries) as [H|H];
      [|done].
    by apply Hiff in H.
  - intros Hblk Hv. apply Hiff. split; [done|].
    intros es1 e es2 -> Hk. rewrite Forall_forall in Hblk.
    rewrite (Hblk e) in Hk; [done|]. apply elem_of_app. right. left.
Qed.

Lemma check_invariant_debug_iff_witness :
  check_invariant true 4
    [mk_entry BLOCK_LIT 3 [pos 3; pos 9; null_literal];
     mk_entry BLOCK_LIT 3 [neg 3; null_literal]] = Some true ∧
  check_invariant true 6 ledger_C = None.
Proof.
  split.
  - apply check_invariant_debug_iff.
    + repeat constructor.
    + intros e He. repeat (apply elem_of_cons in He as [->|He]; [done|]).
      by apply not_elem_of_nil in He.
  - apply check_invariant_debug_iff. intros [_ H].
    specialize (H [] (mk_entry ELIM_VAR 5 [pos 5; pos 4; null_literal])
                  [mk_entry ELIM_VAR 3 [pos 3; neg 5; null_literal]]
                  eq_refl eq_refl).
    apply Forall_cons in H as [[_ H] _]. simpl in H.
    apply Forall_cons in H as [_ H]. apply Forall_cons in H as [[H _] _].
    by apply H.
Defined.

(** ** Building a ledger *)

Lemma split_clauses_app ls1 ls2 cur :
  terminated ls1 →
  split_clauses (ls1 ++ ls2) cur =
  split_clauses ls1 cur ++ split_clauses ls2 (if ls1 is [] then cur else []).
Proof.
  revert cur. induction ls1 as [|l ls1 IH]; intros cur Ht; [done|].
  assert (terminated ls1 ∧ (ls1 = [] → l = null_literal)) as [Ht1 Hl].
  { destruct Ht as [?|Ht]; [done|]. destruct ls1 as [|l' ls1].
    - split; [by left|]. intros _. simpl in Ht. by simplify_eq.
    - split; [right; by rewrite last_cons_cons in Ht|done]. }
  simpl. destruct (decide (l = null_literal)) as [->|Hn].
  - rewrite IH by done. simpl. by destruct ls1.
  - rewrite IH by done. destruct ls1; [by destruct Hn; apply Hl|done].
Qed.

Lemma split_clauses_one c cur :
  Forall (λ l, l ≠ null_literal) c →
  split_clauses (c ++ [null_literal]) cur = [cur ++ c].
Proof.
  revert cur. induction c as [|l c IH]; intros cur Hc; simpl.
  - by rewrite app_nil_r.
  - apply Forall_cons in Hc as [Hl Hc].
    destruct (decide (l = null_literal)); [done|].
    rewrite IH by done. by rewrite <- app_assoc.
Qed.

Lemma terminated_snoc ls : terminated (ls ++ [null_literal]).
Proof. right. apply last_snoc. Qed.

(** X5.  [mk] followed by an [insert] through the reference it
    returned leaves the old entries as they were and ends the ledger with
    the new entry, whose clauses are the attached one and its separator;
    a debug build needs the clause to contain the new variable. *)
Theorem mk_then_insert (debug : bool) (k : kind) (v : bool_var)
    (m_entries : list entry) (c : clause) :
  debug = false ∨ contains c v = true →
  insert_clause debug (mk k v m_entries).1 (mk k v m_entries).2 c
  = Some (m_entries ++ [mk_entry k v (c ++ [null_literal])]) ∧
  insert_wrapper debug (mk k v m_entries).1 (mk k v m_entries).2 c
  = Some (m_entries ++ [mk_entry k v (c ++ [null_literal])]).
Proof.
  intros Hc. unfold mk, push_back, insert_clause, insert_wrapper, with_entry.
  simpl. rewrite list_lookup_middle by done. simpl.
  rewrite sassert_pass by done. simpl.
  rewrite foldl_push_back, push_indexed_all. simpl.
  rewrite !insert_app_r_alt, Nat.sub_diag by done. by unfold push_back.
Qed.

Lemma mk_then_insert_witness :
  insert_clause true (mk ELIM_VAR 3 [entry_B]).1 (mk ELIM_VAR 3 [entry_B]).2
    [pos 1; neg 3] = Some [entry_B; entry_A].
Proof.
  apply (mk_then_insert true ELIM_VAR 3 [entry_B] [pos 1; neg 3]).
  right. reflexivity.
Defined.

(** X6.  Attaching a clause that holds no separator to an entry whose
    clauses all have theirs adds that clause, whole, after the clauses the
    entry had, and again leaves every clause with its separator. *)
Theorem insert_adds_one_clause (debug : bool) (m_entries : list entry)
    (h : handle) (e : entry) (c : clause) (es' : list entry) :
  m_entries !! h = Some e →
  terminated (m_clauses e) →
  Forall (λ l, l ≠ null_literal) c →
  insert_clause debug m_entries h c = Some es' →
  ∃ e', es' !! h = Some e' ∧
        clauses_of e' = clauses_of e ++ [c] ∧
        terminated (m_clauses e') ∧
        m_var e' = m_var e ∧ get_kind e' = get_kind e.
Proof.
  intros He Ht Hc Hins. unfold insert_clause, with_entry in Hins.
  rewrite He in Hins. simpl in Hins.
  destruct (sassert _ _); simplify_eq/=.
  eexists. split.
  { apply list_lookup_insert_eq. by eapply lookup_lt_Some. }
  rewrite foldl_push_back. unfold clauses_of, push_back. simpl.
  rewrite <- app_assoc. split_and!; [|by rewrite app_assoc; apply terminated_snoc|done..].
  rewrite split_clauses_app by done.
  rewrite split_clauses_one by done.
  by destruct (m_clauses e).
Qed.

Lemma insert_adds_one_clause_witness :
  ∃ e', [mk_entry ELIM_VAR 3
           [pos 1; neg 3; null_literal; pos 2; pos 3; null_literal]] !! 0
        = Some e' ∧
        clauses_of e' = clauses_of entry_A ++ [[pos 2; pos 3]] ∧
        terminated (m_clauses e') ∧
        m_var e' = m_var entry_A ∧ get_kind e' = get_kind entry_A.
Proof.
  apply (insert_adds_one_clause true [entry_A] 0 entry_A [pos 2; pos 3]).
  - reflexivity.
  - right. reflexivity.
  - repeat constructor; discriminate.
  - reflexivity.
Defined.

(** ** More on [check_model] *)

Lemma check_clauses_ok ls sat ok m :
  check_clauses ls sat ok m = andb ok <$> check_clauses ls sat true m.
Proof.
  revert sat ok. induction ls as [|l ls IH]; intros sat ok; simpl.
  - by rewrite andb_true_r.
  - destruct (decide (l = null_literal)).
    + destruct sat; simpl; [apply IH|].
      rewrite (IH false false), (IH false true).
      destruct (check_clauses ls false true m); simpl; [|done].
      by rewrite andb_false_r.
    + destruct sat; [apply IH|].
      destruct (value_at l m); simpl; [apply IH|done].
Qed.

Lemma check_model_loop_ok its ok m :
  check_model_loop its ok m = andb ok <$> check_model_loop its true m.
Proof.
  revert ok. induction its as [|e its IH]; intros ok; simpl.
  - by rewrite andb_true_r.
  - rewrite (check_clauses_ok _ _ ok).
    destruct (check_clauses (m_clauses e) false true m) as [b|]; simpl;
      [|done].
    rewrite (IH (ok && b)), (IH b).
    destruct (check_model_loop its true m); simpl; [|done].
    by rewrite andb_assoc.
Qed.

Lemma check_model_loop_cons e its m :
  check_model_loop (e :: its) true m =
  b ← check_clauses (m_clauses e) false true m;
  andb b <$> check_model_loop its true m.
Proof.
  simpl. destruct (check_clauses _ _ _ _) as [b|]; simpl; [|done].
  apply check_model_loop_ok.
Qed.

Lemma check_model_loop_perm its its' m :
  its ≡ₚ its' → check_model_loop its true m = check_model_loop its' true m.
Proof.
  induction 1 as [|e its its' _ IH|e1 e2 its|its1 its2 its3 _ IH1 _ IH2].
  - done.
  - by rewrite !check_model_loop_cons, IH.
  - rewrite !check_model_loop_cons.
    destruct (check_clauses (m_clauses e1) false true m) as [b1|],
      (check_clauses (m_clauses e2) false true m) as [b2|],
      (check_model_loop its true m) as [b|]; simpl; try done.
    by rewrite !andb_assoc, (andb_comm b1 b2).
  - by rewrite IH1.
Qed.

Lemma check_model_loop_true its m :
  check_model_loop its true m = Some true ↔
  ∀ e, e ∈ its → check_clauses (m_clauses e) false true m = Some true.
Proof.
  split; [|apply check_model_loop_ok_true].
  induction its as [|e its IH]; intros H e' He'.
  { by apply not_elem_of_nil in He'. }
  rewrite check_model_loop_cons in H.
  destruct (check_clauses (m_clauses e) false true m) as [b|] eqn:Hb;
    simplify_eq/=.
  destruct (check_model_loop its true m) as [b'|]; simplify_eq/=.
  apply andb_true_iff in H as [-> ->].
  apply elem_of_cons in He' as [->|He']; [done|by apply IH].
Qed.

(** X7.  The answer of [check_model], a fault included, does not depend
    on the order of the entries; and the check of two ledgers put end to
    end passes exactly when the check of each passes. *)
Theorem check_model_order_immaterial (m : model) :
  (∀ es es', es ≡ₚ es' → check_model es m = check_model es' m) ∧
  (∀ es1 es2, check_model (es1 ++ es2) m = Some true ↔
              check_model es1 m = Some true ∧ check_model es2 m = Some true).
Proof.
  split.
  - intros es es' Hp. unfold check_model.
    apply check_model_loop_perm. by rewrite !reverse_Permutation.
  - intros es1 es2. unfold check_model.
    rewrite !check_model_loop_true. setoid_rewrite elem_of_reverse.
    setoid_rewrite elem_of_app. split.
    + intros H. split; intros e He; apply H; [by left|by right].
    + intros [H1 H2] e [He|He]; [by apply H1|by apply H2].
Qed.

Lemma check_model_order_immaterial_witness :
  check_model ledger_O [l_true; l_true; l_true; l_true; l_false; l_false]
  = check_model ledger_C [l_true; l_true; l_true; l_true; l_false; l_false].
Proof.
  apply check_model_order_immaterial.
  unfold ledger_O, ledger_C. apply Permutation_swap.
Defined.

(** X8.  A model that [check_model] accepts is still accepted after
    variables that were [l_undef] have been given values: replacing the
    model by one of the same size in which every defined variable kept its
    value cannot turn the answer from true to anything else. *)
Theorem check_model_extension (m_entries : list entry) (m m' : model) :
  check_model m_entries m = Some true →
  frame (λ _, False) m m' →
  check_model m_entries m' = Some true.
Proof.
  unfold check_model. rewrite !check_model_loop_true.
  intros H Hf e He. specialize (H e He).
  eapply check_clauses_mono; [apply Hf| |done|exact H].
  intros l _ _. apply (frame_value_at _ _ _ _ Hf). tauto.
Qed.

Lemma check_model_extension_witness :
  check_model [entry_A] [l_true; l_true; l_false; l_undef] = Some true ∧
  check_model [entry_A] [l_true; l_true; l_false; l_true] = Some true.
Proof.
  split; [reflexivity|].
  apply (check_model_extension [entry_A] [l_true; l_true; l_false; l_undef]).
  - reflexivity.
  - split; [reflexivity|]. intros w b Hw Hb.
    assert (get [l_true; l_true; l_false; l_true] w = Some b) as Hw'.
    { unfold get in *.
      destruct (N.to_nat w) as [|[|[|[|n]]]]; simplify_eq/=; done. }
    split; [by exists b|done].
Defined.

(** X9.  The empty clause.  A debug build refuses to attach it, by
    either clause overload.  A release build attaches a lone separator,
    and once an entry whose clauses all had their separator has received
    it, [check_model] returns true for no model. *)
Theorem insert_empty_clause (m_entries : list entry) (h : handle) :
  insert_clause true m_entries h [] = None ∧
  insert_wrapper true m_entries h [] = None ∧
  (∀ e es' m,
     m_entries !! h = Some e → terminated (m_clauses e) →
     insert_clause false m_entries h [] = Some es' →
     check_model es' m ≠ Some true).
Proof.
  split_and!.
  - unfold insert_clause, with_entry. by destruct (m_entries !! h).
  - unfold insert_wrapper, with_entry. by destruct (m_entries !! h).
  - intros e es' m He Ht Hins Hchk.
    unfold insert_clause, with_entry in Hins. rewrite He in Hins.
    simplify_eq/=.
    apply check_model_loop_spec in Hchk. destruct Hchk as [Hchk _].
    destruct (Hchk eq_refl) as [_ Hall].
    specialize (Hall (mk_entry (get_kind e) (m_var e)
                        (push_back (m_clauses e) null_literal))).
    unfold clauses_of, push_back in Hall. simpl in Hall.
    rewrite split_clauses_app in Hall by done.
    rewrite Forall_app in Hall. destruct Hall as [_ Hall].
    + apply elem_of_reverse, list_elem_of_lookup. exists h.
      apply list_lookup_insert_eq. by eapply lookup_lt_Some.
    + simpl in Hall. apply Forall_cons in Hall as [Hnil _].
      destruct (m_clauses e); by apply Exists_nil in Hnil.
Qed.

Lemma insert_empty_clause_witness :
  check_model [mk_entry ELIM_VAR 3 [pos 1; neg 3; null_literal; null_literal]]
    [l_true; l_true; l_true; l_true] ≠ Some true.
Proof.
  destruct (insert_empty_clause [entry_A] 0) as (_ & _ & H).
  apply (H entry_A); [reflexivity|right; reflexivity|reflexivity].
Defined.

(** ** More on [apply] *)

Lemma apply_app debug es1 es2 m :
  apply debug (es1 ++ es2) m = apply debug es2 m ≫= apply debug es1.
Proof. unfold apply. by rewrite reverse_app, apply_loop_app. Qed.

(** X10.  Replaying a ledger made of an older part followed by a newer
    part is replaying the newer part and then the older part on the
    result; a fault in either is a fault of the whole. *)
Theorem apply_newer_entries_first (debug : bool) (older newer : list entry)
    (m : model) :
  apply debug (older ++ newer) m = apply debug newer m ≫= apply debug older.
Proof. unfold apply. by rewrite reverse_app, apply_loop_app. Qed.

(** X11.  A release build's [apply] returns, with a model of the same
    size, whenever the variable of every entry and of every stored literal
    is an index of the model; and whatever the build, a model that [apply]
    returns has the size of the model it was given. *)
Theorem apply_release_returns :
  (∀ es m,
     in_range es m → (∀ e, e ∈ es → N.to_nat (m_var e) < length m) →
     ∃ m', apply false es m = Some m' ∧ length m' = length m) ∧
  (∀ debug es m m',
     apply debug es m = Some m' → length m' = length m).
Proof.
  split.
  - intros es m Hr Hv.
    destruct (apply_release_total es m Hr Hv) as [m' Hm'].
    exists m'. split; [done|]. by apply apply_frame in Hm' as [? _].
  - intros debug es m m' Happ. by apply apply_frame in Happ as [? _].
Qed.

Lemma apply_release_returns_witness :
  ∃ m', apply false ledger_O
          [l_true; l_true; l_true; l_undef; l_false; l_undef] = Some m' ∧
        length m' = 6.
Proof.
  destruct apply_release_returns as [Hret _].
  apply (Hret ledger_O).
  - intros e l He Hl Hn. unfold ledger_O in He.
    repeat (apply elem_of_cons in He as [->|He];
            [simpl in Hl;
             repeat (apply elem_of_cons in Hl as [->|Hl];
                     [first [done|vm_compute; lia]|]);
             by apply not_elem_of_nil in Hl|]).
    by apply not_elem_of_nil in He.
  - intros e He. unfold ledger_O in He.
    repeat (apply elem_of_cons in He as [->|He]; [vm_compute; lia|]).
    by apply not_elem_of_nil in He.
Defined.

Lemma sassert_release debug c :
  is_Some (sassert debug c) → sassert false c = Some tt.
Proof. done. Qed.

(** X12.  The assertions only watch.  Whenever a debug build of
    [apply], of an [insert] or of [check_invariant] returns, the release
    build returns the same. *)
Theorem debug_build_agrees_with_release :
  (∀ es m m', apply true es m = Some m' → apply false es m = Some m') ∧
  (∀ es h c es', insert_clause true es h c = Some es' →
                 insert_clause false es h c = Some es') ∧
  (∀ es h c es', insert_wrapper true es h c = Some es' →
                 insert_wrapper false es h c = Some es') ∧
  (∀ es h l1 l2 es', insert_binary true es h l1 l2 = Some es' →
                     insert_binary false es h l1 l2 = Some es') ∧
  (∀ n es b, check_invariant true n es = Some b →
             check_invariant false n es = Some b).
Proof.
  split_and!.
  - intros es m m'. apply apply_loop_debug_release.
  - intros es h c es'. unfold insert_clause, with_entry.
    destruct (es !! h); simpl; [|done].
    by destruct (contains c _).
  - intros es h c es'. unfold insert_wrapper, with_entry.
    destruct (es !! h); simpl; [|done].
    by destruct (contains c _).
  - intros es h l1 l2 es'. unfold insert_binary, with_entry.
    destruct (es !! h); simpl; [|done].
    by destruct (bool_decide _).
  - intros n es b H. rewrite check_invariant_release.
    by destruct (check_invariant_cases true n es) as [H'|H'];
      rewrite H' in H.
Qed.

Lemma debug_build_agrees_with_release_witness :
  apply false [entry_A] model_A = Some [l_true; l_false; l_true; l_false].
Proof.
  destruct debug_build_agrees_with_release as [H _].
  apply (H [entry_A] model_A). reflexivity.
Defined.

Lemma frame_defined X m m' w :
  frame X m m' → is_defined m w → is_defined m' w.
Proof. intros [_ H] (b & Hb & Hd). by apply (H w b). Qed.

(** X13.  A debug build's [apply] returns only if every [ELIM_VAR]
    entry's variable is [l_undef] when its turn comes, that is after the
    entries that follow it have been replayed.  So it refuses any model
    that already gives an eliminated variable a value. *)
Theorem apply_debug_eliminated_undefined (es1 : list entry) (e : entry)
    (es2 : list entry) (m : model) :
  get_kind e = ELIM_VAR →
  (∀ m', apply true (es1 ++ e :: es2) m = Some m' →
         ∃ m2, apply true es2 m = Some m2 ∧
               get m2 (m_var e) = Some l_undef ∧
               get m (m_var e) = Some l_undef) ∧
  (is_defined m (m_var e) → apply true (es1 ++ e :: es2) m = None).
Proof.
  intros Hk.
  assert (∀ m', apply true (es1 ++ e :: es2) m = Some m' →
            ∃ m2, apply true es2 m = Some m2 ∧
                  get m2 (m_var e) = Some l_undef ∧
                  get m (m_var e) = Some l_undef) as H.
  { intros m' Happ.
    rewrite apply_app, (apply_app true [e] es2) in Happ.
    destruct (apply true es2 m) as [m2|] eqn:H2; simplify_eq/=.
    exists m2. split; [done|].
    unfold apply at 2 in Happ. simpl in Happ.
    unfold apply_entry in Happ. simpl in Happ.
    destruct (decide (get_kind e ≠ ELIM_VAR)); [done|].
    destruct (get m2 (m_var e)) as [mv|] eqn:Hg; simplify_eq/=.
    case_bool_decide as Hu; simplify_eq/=. split; [done|].
    apply apply_frame in H2.
    rewrite <- Hg. symmetry. eapply frame_undefined; [done|].
    intros (b & Hb & Hd). congruence. }
  split; [done|].
  intros Hd. destruct (apply true _ m) as [m'|] eqn:Happ; [|done].
  destruct (H m' eq_refl) as (_ & _ & _ & Hu).
  destruct Hd as (b & Hb & Hd). congruence.
Qed.

Lemma apply_debug_eliminated_undefined_witness :
  apply true [entry_A] [l_true; l_false; l_true; l_true] = None.
Proof.
  apply (apply_debug_eliminated_undefined [] entry_A []).
  - reflexivity.
  - by exists l_true.
Defined.

(** ** The patch of one entry finds the value, if there is one *)

Lemma check_clauses_assert ls sat m :
  check_clauses ls sat true m = Some true →
  assert_satisfied ls sat m = Some tt.
Proof.
  revert sat. induction ls as [|l ls IH]; intros sat H; simpl in H |- *.
  - done.
  - destruct (decide (l = null_literal)).
    + destruct sat; simpl in H; [by apply IH|].
      by apply check_clauses_ok_false in H.
    + destruct sat; [by apply IH|].
      destruct (value_at l m); simplify_eq/=. by apply IH.
Qed.

Lemma value_at_undefined l m :
  get m (var l) = Some l_undef → value_at l m ≠ Some l_true.
Proof. unfold value_at. intros ->. simpl. by destruct (sign l). Qed.

Lemma value_at_insert_frame x b m mc l :
  frame (λ _, False) m mc →
  value_at l (<[N.to_nat x := b]> m) = Some l_true →
  value_at l (<[N.to_nat x := b]> mc) = Some l_true.
Proof.
  intros [Hlen Hf]. rewrite !value_at_true_get. unfold get.
  destruct (decide (var l = x)) as [->|Hne].
  - intros Hg. pose proof (lookup_lt_Some _ _ _ Hg) as Hlt.
    rewrite length_insert in Hlt.
    rewrite list_lookup_insert_eq in Hg by done.
    rewrite list_lookup_insert_eq by lia. done.
  - rewrite !list_lookup_insert_ne by lia. intros Hg.
    destruct (Hf (var l) _ Hg) as [_ H]; [apply satisfying_defined|].
    apply H. tauto.
Qed.

Lemma last_polarity_snoc x cur l :
  last_polarity x (cur ++ [l]) =
  if decide (var l = x) then Some (sign l) else last_polarity x cur.
Proof.
  unfold last_polarity. rewrite filter_app, filter_cons, filter_nil.
  destruct (decide (var l = x)).
  - by rewrite last_snoc.
  - by rewrite app_nil_r.
Qed.

Lemma last_polarity_elem x c l :
  l ∈ c → var l = x →
  ∃ l', l' ∈ c ∧ var l' = x ∧ last_polarity x c = Some (sign l').
Proof.
  intros Hin Hv. unfold last_polarity.
  destruct (last (filter (λ l0, var l0 = x) c)) as [l'|] eqn:Hl.
  - apply last_Some_elem_of, list_elem_of_filter in Hl as [? ?]. eauto.
  - apply last_None in Hl.
    assert (l ∈ filter (λ l0, var l0 = x) c) as H
      by (by apply list_elem_of_filter).
    rewrite Hl in H. by apply not_elem_of_nil in H.
Qed.

(** The scan from a state reached with [x] still [l_undef]: [cur] is
    the part of the current clause already read.  If some value [b] of [x]
    satisfies the clauses yet to be closed, the scan returns and they are
    satisfied under the model it leaves. *)
Lemma scan_finds_value x b m ls cur st :
  frame (λ _, False) m (st_m st) →
  get (st_m st) x = Some l_undef →
  (∀ l, l ∈ ls → l ≠ null_literal → N.to_nat (var l) < length m) →
  (st_sat st = true → clause_satisfied (st_m st) cur) →
  (st_sat st = false →
   ∀ l, l ∈ cur → var l ≠ x → value_at l (st_m st) ≠ Some l_true) →
  (st_sat st = false →
   ∀ s, last_polarity x cur = Some s → st_var_sign st = s) →
  Forall (clause_satisfied (<[N.to_nat x := b]> m)) (split_clauses ls cur) →
  Forall (single_polarity x) (split_clauses ls cur) →
  ∃ c, scan x ls st = Some c ∧
       Forall (clause_satisfied (ctl_model c)) (split_clauses ls cur).
Proof.
  revert cur st.
  induction ls as [|l ls IH];
    intros cur [sat vs mc] Hf Hx Hr Hsat Hunsat Hvs Hb Hp; simpl in *.
  { eexists. split; [done|constructor]. }
  assert (∀ l', l' ∈ ls → l' ≠ null_literal → N.to_nat (var l') < length m)
    as Hr' by (intros l' Hin; apply Hr; by right).
  unfold scan_step. destruct (decide (l = null_literal)) as [Hl|Hl].
  - apply Forall_cons in Hb as [Hcur Hb]. apply Forall_cons in Hp as [Hpc Hp].
    destruct sat; simpl.
    + destruct (IH [] (mk_state false vs mc)) as (c & Hscan & Hall);
        simpl; try done.
      { intros _ l' Hin. by apply not_elem_of_nil in Hin. }
      exists c. split; [done|]. constructor; [|done].
      apply scan_frame in Hscan. simpl in Hscan.
      specialize (Hsat eq_refl). unfold clause_satisfied in *.
      rewrite Exists_exists in Hsat |- *.
      destruct Hsat as (l0 & Hin & Hv). exists l0. split; [done|].
      apply (frame_value_at _ _ _ _ Hscan); [|done].
      intros Heq. rewrite Heq in Hx. by apply value_at_undefined in Hx.
    + specialize (Hunsat eq_refl). specialize (Hvs eq_refl).
      pose proof (get_Some_lt _ _ _ Hx) as Hlt.
      rewrite set_in_range by done. simpl.
      eexists. split; [done|]. simpl.
      assert (satisfying vs = b) as ->.
      { unfold clause_satisfied in Hcur. rewrite Exists_exists in Hcur.
        destruct Hcur as (l0 & Hin & Hv).
        destruct (decide (var l0 = x)) as [Hv0|Hv0].
        - destruct (last_polarity_elem x cur l0 Hin Hv0)
            as (l1 & Hin1 & Hv1 & Hlast).
          rewrite (Hvs _ Hlast), (Hpc l1 l0 Hin1 Hin Hv1 Hv0).
          apply value_at_true_get in Hv. unfold get in Hv.
          rewrite Hv0, list_lookup_insert_eq in Hv; [by simplify_eq|].
          destruct Hf as [Hlen _]. lia.
        - exfalso. apply (Hunsat l0 Hin Hv0).
          apply (frame_value_at _ _ _ _ Hf); [tauto|].
          revert Hv. rewrite !value_at_true_get. unfold get.
          by rewrite list_lookup_insert_ne by lia. }
      constructor.
      * unfold clause_satisfied in *. rewrite Exists_exists in Hcur |- *.
        destruct Hcur as (l0 & Hin & Hv). exists l0. split; [done|].
        by eapply value_at_insert_frame.
      * eapply Forall_impl; [exact Hb|]. intros c Hc.
        unfold clause_satisfied in *. rewrite Exists_exists in Hc |- *.
        destruct Hc as (l0 & Hin & Hv). exists l0. split; [done|].
        by eapply value_at_insert_frame.
  - destruct sat; simpl.
    + apply (IH (cur ++ [l]) (mk_state true vs mc)); simpl; try done.
      intros _. apply clause_satisfied_snoc. left. by apply Hsat.
    + specialize (Hunsat eq_refl). specialize (Hvs eq_refl).
      assert (∃ mv, get mc (var l) = Some mv) as [mv Hmv].
      { apply lookup_lt_is_Some_2. destruct Hf as [-> _].
        apply Hr; [left|done]. }
      assert (value_at l mc = Some (if sign l then lnot mv else mv)) as Hval.
      { unfold value_at. by rewrite Hmv. }
      rewrite Hval. simpl.
      destruct (decide ((if sign l then lnot mv else mv) = l_true))
        as [Ht|Ht]; simpl.
      * apply (IH (cur ++ [l]) (mk_state true _ mc)); simpl; try done.
        intros _. apply clause_satisfied_snoc. right. by rewrite Hval, Ht.
      * destruct (decide (var l ≠ x)) as [Hne|Heq]; simpl.
        -- rewrite Hmv. simpl.
           destruct (decide (mv = l_undef)) as [->|Hd]; simpl.
           ++ assert (set mc (var l) (satisfying (sign l))
                      = Some (<[N.to_nat (var l) := satisfying (sign l)]> mc))
                as Hset by (apply set_in_range; by eapply get_Some_lt).
              rewrite Hset. simpl.
              apply (IH (cur ++ [l]) (mk_state true _ _)); simpl; try done.
              ** eapply frame_trans; [done|].
                 eapply frame_set_undef; [done..|apply satisfying_defined].
              ** by rewrite (get_set_ne _ _ _ _ _ Hset).
              ** intros _. apply clause_satisfied_snoc. right.
                 by eapply value_at_set_satisfying.
           ++ apply (IH (cur ++ [l]) (mk_state false _ mc)); simpl; try done.
              ** intros _ l' [Hin| ->%list_elem_of_singleton]%elem_of_app Hv.
                 { by apply Hunsat. }
                 rewrite Hval. congruence.
              ** intros _ s. rewrite last_polarity_snoc.
                 destruct (decide (var l = x)); [done|]. apply Hvs.
        -- apply (IH (cur ++ [l]) (mk_state false _ mc)); simpl; try done.
           ** intros _ l' [Hin| ->%list_elem_of_singleton]%elem_of_app Hv.
              { by apply Hunsat. }
              by destruct Heq.
           ** intros _ s. rewrite last_polarity_snoc.
              destruct (decide (var l = x)); [congruence|]. apply Hvs.
Qed.

(** One turn of the outer loop, under the hypotheses of the theorem
    that follows. *)
Lemma apply_entry_finds_value_core (debug : bool) (e : entry) (m : model)
    (b : lbool) :
  get m (m_var e) = Some l_undef →
  (∀ l, l ∈ m_clauses e → l ≠ null_literal → N.to_nat (var l) < length m) →
  Forall (single_polarity (m_var e)) (clauses_of e) →
  Forall (clause_satisfied (<[N.to_nat (m_var e) := b]> m)) (clauses_of e) →
  ∃ m', apply_entry debug e m = Some m' ∧
        check_clauses (m_clauses e) false true m' = Some true.
Proof.
  intros Hx Hr Hp Hb.
  destruct (scan_finds_value (m_var e) b m (m_clauses e) []
              (mk_state false false m)) as (c & Hscan & Hall);
    simpl; try done.
  { apply frame_refl. }
  { intros _ l Hin. by apply not_elem_of_nil in Hin. }
  pose proof (scan_frame _ _ _ _ Hscan) as [Hlen _]. simpl in Hlen.
  assert (check_clauses (m_clauses e) false true (ctl_model c) = Some true)
    as Hchk.
  { apply (all_satisfied_check_clauses [e]); [| |left].
    - intros e' l ->%list_elem_of_singleton Hl Hn. rewrite Hlen. by apply Hr.
    - by intros e' ->%list_elem_of_singleton. }
  exists (ctl_model c). split; [|done].
  unfold apply_entry, patch. rewrite Hscan. simpl.
  assert (sassert debug
            (if decide (get_kind e ≠ ELIM_VAR) then Some true
             else mv ← get m (m_var e); Some (bool_decide (mv = l_undef)))
          = Some tt) as ->.
  { destruct debug; [|done]. simpl. rewrite Hx. simpl.
    by destruct (decide (get_kind e ≠ ELIM_VAR)). }
  simpl. destruct debug; simpl; [|done].
  by rewrite (check_clauses_assert _ _ _ Hchk).
Qed.

(** X14.  One turn of the replay is right whenever it can be.  Take an
    entry whose variable is [l_undef], whose stored literals index the
    model, and none of whose clauses holds its variable with both signs.
    If some value of the variable satisfies every clause of the entry,
    then [apply] on that entry, in either build, returns a model under
    which every clause of the entry is satisfied, and [check_model]
    accepts it. *)
Theorem apply_entry_finds_value (debug : bool) (e : entry) (m : model)
    (b : lbool) :
  get m (m_var e) = Some l_undef →
  (∀ l, l ∈ m_clauses e → l ≠ null_literal → N.to_nat (var l) < length m) →
  Forall (single_polarity (m_var e)) (clauses_of e) →
  Forall (clause_satisfied (<[N.to_nat (m_var e) := b]> m)) (clauses_of e) →
  ∃ m', apply debug [e] m = Some m' ∧
        Forall (clause_satisfied m') (clauses_of e) ∧
        check_model [e] m' = Some true.
Proof.
  intros Hx Hr Hp Hb.
  destruct (apply_entry_finds_value_core debug e m b Hx Hr Hp Hb)
    as (m' & Happ & Hchk).
  exists m'. split_and!.
  - unfold apply. change (reverse [e]) with [e]. cbn [apply_loop].
    by rewrite Happ.
  - apply (check_clauses_spec _ [] _ _ _ _ (unsatisfied_nil m')) in Hchk.
    by apply Hchk.
  - unfold check_model. change (reverse [e]) with [e]. simpl.
    by rewrite Hchk.
Qed.

Lemma apply_entry_finds_value_witness :
  ∃ m', apply true [entry_R] model_A = Some m' ∧
        Forall (clause_satisfied m') (clauses_of entry_R) ∧
        check_model [entry_R] m' = Some true.
Proof.
  apply (apply_entry_finds_value true entry_R model_A l_true).
  - reflexivity.
  - intros l Hl Hn. simpl in Hl.
    repeat (apply elem_of_cons in Hl as [->|Hl];
            [first [done|vm_compute; lia]|]).
    by apply not_elem_of_nil in Hl.
  - unfold clauses_of. simpl. repeat constructor;
      intros l1 l2 H1 H2 Hv1 Hv2;
      repeat (apply elem_of_cons in H1 as [->|H1]);
      repeat (apply elem_of_cons in H2 as [->|H2]);
      try (by apply not_elem_of_nil in H1);
      try (by apply not_elem_of_nil in H2); done.
  - unfold clauses_of. simpl. constructor; [|constructor; [|constructor]].
    + apply Exists_cons_tl, Exists_cons_hd. reflexivity.
    + apply Exists_cons_hd. reflexivity.
Defined.

(** ** [display] *)

Lemma display_clauses_cons l ls start out :
  display_clauses (l :: ls) start out =
  display_clauses ls (bool_decide (l = null_literal))
    (out ++ pieces l start).
Proof.
  unfold pieces. simpl.
  destruct start, (decide (l = null_literal)) as [Hl|Hl]; simpl.
  - rewrite bool_decide_eq_true_2 by done. by rewrite <- ?app_assoc.
  - rewrite bool_decide_eq_false_2 by done. by rewrite <- ?app_assoc.
  - rewrite bool_decide_eq_true_2 by done.
    destruct (decide (l ≠ null_literal)); [done|]. by rewrite <- ?app_assoc.
  - rewrite bool_decide_eq_false_2 by done.
    destruct (decide (l ≠ null_literal)); [|done]. by rewrite <- ?app_assoc.
Qed.

Lemma display_clauses_out ls start out :
  display_clauses ls start out = out ++ display_clauses ls start [].
Proof.
  revert start out. induction ls as [|l ls IH]; intros start out.
  - simpl. by rewrite app_nil_r.
  - rewrite !display_clauses_cons, IH, (IH _ ([] ++ _)).
    by rewrite <- ?app_assoc.
Qed.

Lemma display_entry_out e out :
  display_entry out e =
  out ++ entry_head e ++ display_clauses (m_clauses e) true [] ++ [Text ")"].
Proof.
  unfold display_entry, entry_head.
  rewrite display_clauses_out. by rewrite <- ?app_assoc.
Qed.

Lemma foldl_display_entry es out :
  foldl display_entry out es = out ++ (es ≫= display_entry []).
Proof.
  revert out. induction es as [|e es IH]; intros out; simpl.
  - by rewrite app_nil_r.
  - rewrite IH, display_entry_out, (display_entry_out _ []).
    by rewrite <- ?app_assoc.
Qed.

Lemma display_out es out :
  display es out =
  out ++ [Text "(sat::model-converter"] ++ (es ≫= display_entry [])
      ++ [Text (")" +:+ nl)].
Proof.
  unfold display. rewrite foldl_display_entry. by rewrite <- ?app_assoc.
Qed.

Lemma literals_written_pieces l start :
  literals_written (pieces l start) = real_literals [l].
Proof.
  unfold pieces, literals_written, real_literals. rewrite filter_cons.
  destruct start, (decide (l = null_literal)) as [Hl|Hl]; simpl;
    destruct (decide (l ≠ null_literal)); done.
Qed.

Lemma literals_written_app out1 out2 :
  literals_written (out1 ++ out2)
  = literals_written out1 ++ literals_written out2.
Proof. apply omap_app. Qed.

Lemma numbers_written_app out1 out2 :
  numbers_written (out1 ++ out2)
  = numbers_written out1 ++ numbers_written out2.
Proof. apply omap_app. Qed.

Lemma literals_written_clauses ls start :
  literals_written (display_clauses ls start []) = real_literals ls.
Proof.
  revert start. induction ls as [|l ls IH]; intros start; [done|].
  rewrite display_clauses_cons, display_clauses_out, app_nil_l.
  rewrite literals_written_app, IH, literals_written_pieces.
  unfold real_literals.
  rewrite (filter_cons _ l ls), filter_cons, filter_nil.
  by destruct (decide (l ≠ null_literal)).
Qed.

Lemma numbers_written_clauses ls start :
  numbers_written (display_clauses ls start []) = [].
Proof.
  revert start. induction ls as [|l ls IH]; intros start; [done|].
  rewrite display_clauses_cons, display_clauses_out, app_nil_l.
  rewrite numbers_written_app, IH, app_nil_r.
  unfold pieces.
  destruct start, (decide (l = null_literal));
    simpl; destruct (decide (l ≠ null_literal)); done.
Qed.

Lemma display_literals es :
  literals_written (display es [])
  = es ≫= (λ e, real_literals (m_clauses e)).
Proof.
  rewrite display_out, app_nil_l, !literals_written_app.
  change (literals_written [Text "(sat::model-converter"]) with
    (@nil literal).
  change (literals_written [Text (")" +:+ nl)]) with (@nil literal).
  rewrite app_nil_l, app_nil_r.
  induction es as [|e es IH]; [done|].
  rewrite !bind_cons, literals_written_app, IH. f_equal.
  rewrite display_entry_out, app_nil_l, !literals_written_app.
  change (literals_written (entry_head e)) with (@nil literal).
  change (literals_written [Text ")"]) with (@nil literal).
  rewrite app_nil_l, app_nil_r. apply literals_written_clauses.
Qed.

Lemma display_numbers es :
  numbers_written (display es []) = m_var <$> es.
Proof.
  rewrite display_out, app_nil_l, !numbers_written_app.
  change (numbers_written [Text "(sat::model-converter"]) with
    (@nil bool_var).
  change (numbers_written [Text (")" +:+ nl)]) with (@nil bool_var).
  rewrite app_nil_l, app_nil_r.
  induction es as [|e es IH]; [done|].
  rewrite bind_cons, numbers_written_app, IH, fmap_cons.
  rewrite display_entry_out, app_nil_l, !numbers_written_app.
  change (numbers_written (entry_head e)) with [m_var e].
  rewrite numbers_written_clauses.
  by change (numbers_written [Text ")"]) with (@nil bool_var).
Qed.

(** X15.  [display] only adds to the stream, and what it adds does not
    depend on what was there.  Among what it writes, the literals are the
    stored literals of the entries, entry after entry and in stored order,
    the separator never; the numbers are the variables of the entries, in
    ledger order. *)
Theorem display_writes (m_entries : list entry) (out : list chunk) :
  display m_entries out = out ++ display m_entries [] ∧
  literals_written (display m_entries [])
    = m_entries ≫= (λ e, real_literals (m_clauses e)) ∧
  numbers_written (display m_entries []) = m_var <$> m_entries ∧
  Literal null_literal ∉ display m_entries [].
Proof.
  split_and!; [|apply display_literals|apply display_numbers|].
  - rewrite (display_out _ out), (display_out _ []). done.
  - intros Hin.
    assert (null_literal ∈ literals_written (display m_entries [])) as H.
    { apply list_elem_of_omap. by exists (Literal null_literal). }
    rewrite display_literals in H.
    apply list_elem_of_bind in H as (e & Hl & _).
    apply list_elem_of_filter in Hl as [Hn _]. done.
Qed.

Lemma depth_app out1 out2 : depth (out1 ++ out2) = (depth out1 + depth out2)%Z.
Proof.
  unfold depth. induction out1 as [|c out1 IH]; simpl; [done|].
  destruct c; lia.
Qed.

(** The clause that the scan is in when the sequence ends. *)
Lemma depth_display_clauses ls start :
  depth (display_clauses ls start []) =
  ((if match last ls with
        | Some l => bool_decide (l = null_literal)
        | None => start
        end then 0 else 1)
   - (if start then 0 else 1))%Z.
Proof.
  revert start. induction ls as [|l ls IH]; intros start.
  - simpl. destruct start; done.
  - rewrite display_clauses_cons, display_clauses_out, app_nil_l.
    rewrite depth_app, IH, last_cons.
    assert (depth (pieces l start) =
            (if bool_decide (l = null_literal) then 0 else 1)
            - (if start then 0 else 1))%Z as ->.
    { unfold pieces.
      destruct start, (decide (l = null_literal)) as [Hl|Hl];
        [rewrite bool_decide_eq_true_2 by done
        |rewrite bool_decide_eq_false_2 by done
        |rewrite bool_decide_eq_true_2 by done
        |rewrite bool_decide_eq_false_2 by done];
        destruct (decide (l ≠ null_literal)); done. }
    destruct (last ls); lia.
Qed.

Lemma depth_entry_head e : depth (entry_head e) = 1%Z.
Proof.
  unfold entry_head. by destruct (decide (get_kind e = ELIM_VAR)).
Qed.

Lemma depth_display_entry e :
  depth (display_entry [] e) =
  if decide (terminated (m_clauses e)) then 0%Z else 1%Z.
Proof.
  rewrite display_entry_out, app_nil_l.
  rewrite depth_app, depth_app, depth_display_clauses.
  rewrite depth_entry_head.
  change (depth [Text ")"]) with (-1)%Z.
  destruct (decide (terminated (m_clauses e))) as [[Hnil|Hlast]|Ht].
  - rewrite Hnil. simpl. lia.
  - rewrite Hlast, bool_decide_eq_true_2 by done. lia.
  - destruct (last (m_clauses e)) as [l'|] eqn:Hl.
    + rewrite bool_decide_eq_false_2; [lia|].
      intros ->. apply Ht. by right.
    + apply last_None in Hl. destruct Ht. by left.
Qed.

(** X16.  In what [display] writes, the opening parentheses of the
    string constants outnumber the closing ones by the number of entries
    whose last clause lacks its separator: the dump is balanced exactly
    when every clause of every entry has its separator. *)
Theorem display_balanced (m_entries : list entry) :
  depth (display m_entries []) = Z.of_nat (length (unterminated m_entries)) ∧
  (depth (display m_entries []) = 0%Z ↔
   Forall (λ e, terminated (m_clauses e)) m_entries).
Proof.
  assert (depth (display m_entries [])
          = Z.of_nat (length (unterminated m_entries))) as H.
  { rewrite display_out, app_nil_l, depth_app.
    change (depth [Text "(sat::model-converter"]) with 1%Z.
    rewrite depth_app. change (depth [Text (")" +:+ nl)]) with (-1)%Z.
    unfold unterminated.
    induction m_entries as [|e es IH]; [done|].
    rewrite bind_cons, depth_app, depth_display_entry, filter_cons.
    destruct (decide (terminated (m_clauses e))) as [Ht|Ht].
    - rewrite decide_False by (by intros ?). lia.
    - rewrite decide_True by done. simpl length. lia. }
  split; [done|]. rewrite H. clear H. unfold unterminated.
  induction m_entries as [|e es IH]; [by split; [constructor|]|].
  rewrite filter_cons, Forall_cons.
  destruct (decide (terminated (m_clauses e))) as [Ht|Ht].
  - rewrite decide_False by (by intros ?). tauto.
  - rewrite decide_True by done. simpl length. split; [lia|tauto].
Qed.

(** ** The self-check, stale signs, and sizing the model *)

(** X17.  The self-check that a debug build runs after patching an
    entry passes exactly when [check_model] accepts the ledger made of
    that entry alone. *)
Theorem self_check_is_check_model (e : entry) (m : model) :
  assert_satisfied (m_clauses e) false m = Some tt ↔
  check_model [e] m = Some true.
Proof.
  unfold check_model. change (reverse [e]) with [e]. simpl. split.
  - intros H%assert_satisfied_check. by rewrite H.
  - intros H. apply check_clauses_assert.
    by destruct (check_clauses _ _ _ _) as [[]|].
Qed.

Lemma scan_clause_no_true_literal x c st st' :
  Forall (λ l, l ≠ null_literal) c →
  scan x c st = Some (Continue st') →
  st_sat st' = false →
  ∀ l, l ∈ c → value_at l (st_m st) ≠ Some l_true.
Proof.
  intros Hc. revert st.
  induction Hc as [|l c Hl Hc IH]; intros st Hscan Hsat l' Hin.
  { by apply not_elem_of_nil in Hin. }
  simpl in Hscan.
  destruct (scan_step x l st) as [[st1|m1]|] eqn:Hstep; simplify_eq/=.
  destruct (scan_clause_unsatisfied _ _ _ _ Hc Hscan Hsat) as (Hsat1 & _).
  apply scan_step_cases in Hstep
    as [(? & _)|[(? & _)|[(_ & ? & ?)|
        (_ & ? & r & vs & Hr & ? & [(_ & ?)|[(_ & _ & _ & m' & _ & ?)|
                                             (Ht & _ & ?)]])]]];
    simplify_eq/=; try done.
  { by rewrite Hsat1 in *. }
  apply elem_of_cons in Hin as [->|Hin]; [congruence|].
  by apply (IH _ Hscan Hsat).
Qed.

(** X18.  [var_sign] is not reset between clauses.  When the scan of
    the entry of [x] closes, unsatisfied, a clause that holds no literal
    over [x], it still stops there and sets [x], by the sign left from an
    earlier clause (true if there was none); and the clause that stopped
    it remains unsatisfied under the model it leaves. *)
Theorem scan_unsatisfied_clause_without_variable (x : bool_var)
    (c rest : clause) (st st' : scan_state) :
  Forall (λ l, l ≠ null_literal) c →
  scan x c st = Some (Continue st') →
  st_sat st' = false →
  last_polarity x c = None →
  N.to_nat x < length (st_m st) →
  scan x (c ++ null_literal :: rest) st =
    Some (Break (<[N.to_nat x := if st_var_sign st then l_false else l_true]>
                   (st_m st))) ∧
  ¬ clause_satisfied
      (<[N.to_nat x := if st_var_sign st then l_false else l_true]> (st_m st))
      c.
Proof.
  intros Hc Hscan Hsat Hlast Hlt.
  destruct (scan_clause_unsatisfied _ _ _ _ Hc Hscan Hsat)
    as (Hsat0 & Hm & Hvs).
  rewrite Hlast in Hvs. simpl in Hvs. split.
  - rewrite scan_app, Hscan. simpl.
    destruct st' as [sat' vs' m']. simpl in *. subst. simpl.
    by rewrite set_in_range.
  - unfold clause_satisfied. rewrite Exists_exists. intros (l & Hin & Hv).
    apply (scan_clause_no_true_literal _ _ _ _ Hc Hscan Hsat l Hin).
    revert Hv. rewrite !value_at_true_get. unfold get.
    rewrite list_lookup_insert_ne; [done|].
    intros Heq. apply N2Nat.inj in Heq.
    unfold last_polarity in Hlast.
    destruct (last (filter (λ l0, var l0 = x) c)) eqn:Hl; [done|].
    apply last_None in Hl.
    assert (l ∈ filter (λ l0, var l0 = x) c) as H
      by (by apply list_elem_of_filter).
    rewrite Hl in H. by apply not_elem_of_nil in H.
Qed.

Lemma scan_unsatisfied_clause_without_variable_witness :
  scan 3 [pos 1; null_literal] (mk_state false false model_A) =
    Some (Break [l_true; l_false; l_true; l_true]) ∧
  ¬ clause_satisfied [l_true; l_false; l_true; l_true] [pos 1].
Proof.
  apply (scan_unsatisfied_clause_without_variable 3 [pos 1] []
           (mk_state false false model_A) (mk_state false false model_A)).
  - repeat constructor; discriminate.
  - reflexivity.
  - reflexivity.
  - reflexivity.
  - vm_compute. lia.
Defined.

(** X19.  [max_var] sizes the model.  In a model with more variables
    than [max_var(0)], every stored literal is an index; and if, as the
    [insert]s assert, every entry's variable occurs among its own
    literals, a release build's [apply] on such a model returns. *)
Theorem max_var_sizes_model (m_entries : list entry) (m : model) :
  (max_var 0 m_entries < N.of_nat (length m))%N →
  in_range m_entries m ∧
  ((∀ e, e ∈ m_entries → mentions (m_var e) e) →
   ∃ m', apply false m_entries m = Some m' ∧ length m' = length m).
Proof.
  intros Hmax.
  assert (in_range m_entries m) as Hr.
  { intros e l He Hl Hn.
    pose proof (max_var_clauses_bound (m_clauses e) 0 l Hl Hn) as H1.
    assert (max_var_clauses (m_clauses e) 0 ≤ max_var 0 m_entries)%N as H2.
    { clear -He. apply list_elem_of_split in He as (es1 & es2 & ->).
      rewrite max_var_app. simpl.
      etrans; [|apply max_var_ge].
      rewrite (max_var_clauses_max _ (max_var 0 es1)). lia. }
    lia. }
  split; [done|]. intros Hm.
  destruct (apply_release_total m_entries m Hr) as [m' Hm'].
  - intros e He. destruct (Hm e He) as (l & Hl & Hn & <-). by apply (Hr e).
  - exists m'. split; [done|]. by apply apply_frame in Hm' as [? _].
Qed.

Lemma max_var_sizes_model_witness :
  ∃ m', apply false ledger_O
          [l_true; l_true; l_true; l_undef; l_false; l_undef] = Some m' ∧
        length m' = 6.
Proof.
  apply (max_var_sizes_model ledger_O); [vm_compute; reflexivity|].
  intros e He. unfold ledger_O in He.
  apply elem_of_cons in He as [->|He].
  { exists (pos 3). split_and!; [left|discriminate|reflexivity]. }
  apply list_elem_of_singleton in He as ->.
  exists (pos 5). split_and!; [left|discriminate|reflexivity].
Defined.

(** ** The whole replay *)

Lemma apply_single debug e m : apply debug [e] m = apply_entry debug e m.
Proof.
  unfold apply. change (reverse [e]) with [e]. cbn [apply_loop].
  by destruct (apply_entry debug e m).
Qed.

Lemma apply_cons debug e es m :
  apply debug (e :: es) m = apply debug es m ≫= apply_entry debug e.
Proof.
  rewrite (apply_app debug [e] es).
  destruct (apply debug es m); simpl; [apply apply_single|done].
Qed.

(** Every tail of the ledger can be replayed, when each entry can be
    patched at the model that the replay of the entries after it
    leaves. *)
Lemma apply_debug_returns es m es2 :
  (∀ es1 e es2 m2, es = es1 ++ e :: es2 → apply false es2 m = Some m2 →
                   solvable_at e m2) →
  ∀ es1, es = es1 ++ es2 → is_Some (apply true es2 m).
Proof.
  intros Hs. induction es2 as [|e es2 IH]; intros es1 Hes; [done|].
  destruct (IH (es1 ++ [e])) as [m2 H2]; [by rewrite <- app_assoc|].
  rewrite apply_cons, H2. simpl.
  destruct (Hs es1 e es2 m2 Hes) as (Hx & Hr & Hp & b & Hb).
  { by apply apply_loop_debug_release. }
  destruct (apply_entry_finds_value_core true e m2 b Hx Hr Hp Hb)
    as (m3 & -> & _).
  done.
Qed.

(** X20.  One backward pass is enough.  On a ledger that passes
    [check_invariant] and in which no later entry mentions the variable
    of a [BLOCK_LIT] entry either, suppose that each entry can be patched
    when its turn comes: at the model left by the replay of the entries
    after it, its variable is [l_undef], its literals index the model, no
    clause holds its variable with both signs, and some value of its
    variable satisfies its clauses.  Then [apply] returns, in a debug
    build (every assertion and self-check passing) and in a release build
    alike, and [check_model] accepts the model it returns. *)
Theorem replay_correct (num_vars : bool_var) (m_entries : list entry)
    (m : model) :
  check_invariant true num_vars m_entries = Some true →
  blocked_unreferenced m_entries →
  (∀ es1 e es2 m2,
     m_entries = es1 ++ e :: es2 → apply false es2 m = Some m2 →
     solvable_at e m2) →
  ∃ m', apply true m_entries m = Some m' ∧
        apply false m_entries m = Some m' ∧
        check_model m_entries m' = Some true.
Proof.
  intros Hinv Hblk Hs.
  destruct (apply_debug_returns m_entries m m_entries Hs [] eq_refl)
    as [m' Happ].
  exists m'. split_and!; [done|by apply apply_loop_debug_release|].
  pose proof (check_invariant_ordered _ _ Hinv Hblk) as Hord.
  unfold apply, check_model in *.
  apply check_model_loop_ok_true.
  eapply apply_loop_debug_checked; [|done].
  intros a e b e' Hrev. by eapply ordered_reverse.
Qed.

Lemma replay_correct_witness :
  ∃ m', apply true ledger_O
          [l_true; l_true; l_true; l_undef; l_false; l_undef] = Some m' ∧
        apply false ledger_O
          [l_true; l_true; l_true; l_undef; l_false; l_undef] = Some m' ∧
        check_model ledger_O m' = Some true.
Proof.
  apply (replay_correct 6 ledger_O).
  - reflexivity.
  - intros es1 e es2 e2 Heq Hk He2. unfold ledger_O in Heq.
    destruct es1 as [|e1 [|e1' [|e1'' es1]]]; simplify_eq/=.
  - intros es1 e es2 m2 Heq Happ. unfold ledger_O in Heq.
    assert (∀ x (c : clause), (∀ l1 l2, l1 ∈ c → l2 ∈ c → l1 ≠ l2 →
               var l1 = x → var l2 = x → False) → single_polarity x c)
      as Hsingle.
    { intros x c H l1 l2 H1 H2 Hv1 Hv2.
      destruct (decide (l1 = l2)) as [->|Hne]; [done|].
      by destruct (H l1 l2). }
    destruct es1 as [|e1 [|e1' [|e1'' es1]]]; simplify_eq/=;
      vm_compute in Happ; injection Happ as <-.
    + split_and!; [reflexivity| | |exists l_true].
      * intros l Hl Hn.
        repeat (apply elem_of_cons in Hl as [->|Hl];
                [first [done|vm_compute; lia]|]).
        by apply not_elem_of_nil in Hl.
      * unfold clauses_of. simpl. constructor; [|constructor].
        apply Hsingle. intros l1 l2 H1 H2 Hne Hv1 Hv2.
        repeat (apply elem_of_cons in H1 as [->|H1]);
          repeat (apply elem_of_cons in H2 as [->|H2]);
          try (by apply not_elem_of_nil in H1);
          try (by apply not_elem_of_nil in H2); done.
      * unfold clauses_of. simpl. constructor; [|constructor].
        apply Exists_cons_hd. reflexivity.
    + split_and!; [reflexivity| | |exists l_true].
      * intros l Hl Hn.
        repeat (apply elem_of_cons in Hl as [->|Hl];
                [first [done|vm_compute; lia]|]).
        by apply not_elem_of_nil in Hl.
      * unfold clauses_of. simpl. constructor; [|constructor].
        apply Hsingle. intros l1 l2 H1 H2 Hne Hv1 Hv2.
        repeat (apply elem_of_cons in H1 as [->|H1]);
          repeat (apply elem_of_cons in H2 as [->|H2]);
          try (by apply not_elem_of_nil in H1);
          try (by apply not_elem_of_nil in H2); done.
      * unfold clauses_of. simpl. constructor; [|constructor].
        apply Exists_cons_hd. reflexivity.
Defined.



End sat.
